(** * meltr: the chunked melt loop of [Reader] (src/Reader.cpp)

    A shallow embedding of [Reader::melt], [Reader::collectorsResize],
    [Reader::collectorsClear] and [Reader::meltToDataFrame], together with
    the properties the specification states about them.

    Conventions.
    - [R_xlen_t] counters ([cells], [n], [lines], [first_row], [last_row])
      are integers of [Z]; token coordinates ([size_t] in the source) are
      naturals of [N].  Counting and [lines * 10] are taken not to
      overflow; the conversion of a double to [R_xlen_t] in line 117 is
      modelled with the 64 bit range of [R_xlen_t] ([to_xlen]).
    - A [double] is the rational it denotes; every arithmetic operation on
      doubles is the exact operation followed by [round_b64], rounding to
      the nearest value with a 53 bit significand, ties to even (exponent
      range unbounded, so no infinities or NaN: a division by zero is a
      fault of its own).
    - The components Reader.cpp only calls (tokenizer, collectors, type
      guess, progress bar) are modelled by their interface. *)

From Stdlib Require Import ZArith QArith Qround Lia.
From stdpp Require Import base list strings.

Local Close Scope Q_scope.
Local Open Scope Z_scope.

(** ** Doubles *)

(** Nearest integer to [num / den], ties to even ([0 < den]). *)
Definition round_half_even (num den : Z) : Z :=
  let m := num / den in
  let r := num mod den in
  if 2 * r <? den then m
  else if den <? 2 * r then m + 1
  else if Z.even m then m else m + 1.

(** [2^k] split into a numerator and a denominator factor. *)
Definition scale_up (k : Z) : Z := 2 ^ Z.max k 0.
Definition scale_down (k : Z) : Z := 2 ^ Z.max (- k) 0.

(** [2^52 <= (a/b) * 2^k] *)
Definition in_binade (a : Z) (b : positive) (k : Z) : bool :=
  2 ^ 52 * (Z.pos b * scale_down k) <=? a * scale_up k.

(** The shift [k] that brings [a/b > 0] into [[2^52, 2^53)]. *)
Definition binade_shift (a : Z) (b : positive) : Z :=
  let k0 := 52 - (Z.log2 a - Z.log2 (Z.pos b)) in
  if in_binade a b k0 then k0 else k0 + 1.

Definition round_pos (a : Z) (b : positive) : Q :=
  let k := binade_shift a b in
  let m := round_half_even (a * scale_up k) (Z.pos b * scale_down k) in
  Qmake (m * scale_down k) (Z.to_pos (scale_up k)).

(** Round to nearest binary64 value. *)
Definition round_b64 (q : Q) : Q :=
  match Qnum q with
  | Z0 => 0%Q
  | Z.pos _ => round_pos (Qnum q) (Qden q)
  | Z.neg _ => Qopp (round_pos (- Qnum q) (Qden q))
  end.

(** Largest relative shrink of one rounding: [1 - 2^-53]. *)
Definition ulp_factor : Q := 9007199254740991 # 9007199254740992.

(** The literal [1.1] of line 117, as the double the compiler stores. *)
Definition overprovision : Q := round_b64 (11 # 10).

(** Truncation toward zero. *)
Definition Qtrunc (q : Q) : Z := if Qnum q <? 0 then Qceiling q else Qfloor q.

(** [R_xlen_t] is a signed integer of 64 bits. *)
Definition xlen_min : Z := - 2 ^ 63.
Definition xlen_max : Z := 2 ^ 63 - 1.

(** Conversion of a double to [R_xlen_t]: the value truncated toward
    zero when [R_xlen_t] can hold it.  When it cannot, C++ leaves the
    result undefined; the conversion instruction of x86-64 (cvttsd2si)
    answers the least [R_xlen_t], and so does [to_xlen]. *)
Definition to_xlen (q : Q) : Z :=
  let z := Qtrunc q in
  if (xlen_min <=? z) && (z <=? xlen_max) then z else xlen_min.

(** The double of line 117, [(cells / tokenizer_->progress().first) * 1.1]:
    [cells] is converted to double, divided, multiplied, each step
    rounded. *)
Definition estimate_double (cells : Z) (p : Q) : Q :=
  round_b64 (round_b64 (round_b64 (inject_Z cells) / p) * overprovision).

(** Line 117: that double converted to [R_xlen_t], the new [n].  [None]
    when the divisor is zero. *)
Definition estimate (cells : Z) (p : Q) : option Z :=
  if Qeq_bool p 0 then None else Some (to_xlen (estimate_double cells p)).

(** ** Tokens *)

Inductive TokenType := TOKEN_STRING | TOKEN_MISSING | TOKEN_EMPTY | TOKEN_EOF.

#[global] Instance TokenType_eq_dec : EqDecision TokenType.
Proof. solve_decision. Defined.

Record Token := mkToken {
  type : TokenType;
  row : N;
  col : N;
  asString : string
}.

Definition is_eof (t : Token) : bool :=
  match type t with TOKEN_EOF => true | _ => false end.

(** ** Tokenizer *)

(** What [progress()] returns.  Reader.cpp divides by the first
    component: following the specification it is the fraction of the
    source consumed so far, a double; the second component is only
    passed on to the progress bar. *)
Abbreviation Progress := (Q * N)%type.

(** Modelled from the spec: the tokenizer (its sources are not under
    src/).  It hands out an ordered sequence of tokens, then the END
    sentinel for ever; [progress()] reports where the cursor stands after
    the last token handed out.  The state is the tokens still to come, each
    with the progress reading current once it has been fetched. *)
Record Tokenizer := mkTokenizer {
  stream : list (Token * Progress);
  now : Progress
}.

(** The END sentinel; [melt] never reads its coordinates. *)
Definition eof_token : Token := mkToken TOKEN_EOF 0 0 "".

Definition nextToken (tk : Tokenizer) : Token * Tokenizer :=
  match stream tk with
  | [] => (eof_token, tk)
  | (t, p) :: rest => (t, mkTokenizer rest p)
  end.

Definition progress (tk : Tokenizer) : Progress := now tk.

(** ** Collectors *)

(** A stored cell.  [NA] is what a slot holds before it is written. *)
Inductive Value :=
| NA
| VInt (z : Z)
| VStr (s : string)
| VTok (t : Token).

(** Modelled from the spec: a collector (its sources are not under src/)
    is a resizable column; its capacity is its length, [resize] grows or
    shrinks it keeping the prefix, [clear] empties it and [setValue] writes
    a slot reserved before. *)
Abbreviation Collector := (list Value).

Inductive Fault :=
| InvalidToken      (* cpp11::stop("Invalid token") *)
| OutOfRange        (* a write or a read past the reserved slots *)
| BadCapacity       (* a resize to a negative length *)
| ZeroProgress      (* division by a zero progress fraction *)
| OutOfFuel.        (* the chunk driver was given too few rounds *)

Inductive result (A : Type) :=
| Ok (a : A)
| Err (f : Fault).
Arguments Ok {A} a.
Arguments Err {A} f.

Definition bind {A B : Type} (m : result A) (k : A -> result B) : result B :=
  match m with
  | Ok a => k a
  | Err f => Err f
  end.

Notation "'try' x := m 'in' k" := (bind m (fun x => k))
  (at level 10, x name, m at level 100, k at level 200).
Notation "'try' ' p := m 'in' k" := (bind m (fun p => k))
  (at level 10, p pattern, m at level 100, k at level 200).

(** [collectors_[j]->setValue(i, v)] *)
Definition setValue (j : nat) (i : Z) (v : Value) (cs : list Collector)
  : result (list Collector) :=
  match cs !! j with
  | None => Err OutOfRange
  | Some c =>
      if (0 <=? i) && (i <? Z.of_nat (length c))
      then Ok (<[j := <[Z.to_nat i := v]> c]> cs)
      else Err OutOfRange
  end.

(** [Reader::collectorsResize] *)
Definition collectorsResize (n : Z) (cs : list Collector)
  : result (list Collector) :=
  if n <? 0 then Err BadCapacity
  else Ok (resize (Z.to_nat n) NA <$> cs).

(** [Reader::collectorsClear] *)
Definition collectorsClear (cs : list Collector) : list Collector :=
  (fun _ => []) <$> cs.

(** [cs[j][i]], when there is such a slot. *)
Definition cell (cs : list Collector) (j i : nat) : option Value :=
  cs !! j ≫= (.!! i).

(** ** Reader *)

Inductive ProgressEvent :=
| ShowBar (p : Progress)
| StopBar.

(** The members of [Reader] that [melt] reads or writes.  [progressBar_]
    is the log of what the progress bar was told, latest first. *)
Record Reader := mkReader {
  tokenizer_ : Tokenizer;
  collectors_ : list Collector;
  progress_ : bool;
  progressBar_ : list ProgressEvent;
  begun_ : bool;
  t_ : Token
}.

(** What Reader.cpp takes from elsewhere: the locale type, the type guess
    [collectorGuess] and the constant [progressStep_] of Reader.h. *)
Class MeltEnv := {
  Locale : Type;
  collectorGuess : string -> Locale -> bool -> string;
  progressStep_ : Z
}.

(** The locals of [melt] that live across loop iterations. *)
Record LoopState := mkLoop {
  ls_cells : Z;
  ls_n : Z;
  ls_last_row : Z;
  ls_collectors : list Collector;
  ls_bar : list ProgressEvent
}.

(** Lines 115-119: the growth check. *)
Definition grow (cells n : Z) (p : Progress) (cs : list Collector)
  : result (Z * list Collector) :=
  if n <=? cells then
    match estimate cells p.1 with
    | None => Err ZeroProgress
    | Some n' => try cs' := collectorsResize n' cs in Ok (n', cs')
    end
  else Ok (n, cs).

(** Lines 125-140: the [data_type] cell of a token. *)
Definition writeType `{MeltEnv} (locale : Locale) (i : Z) (t : Token)
    (cs : list Collector) : result (list Collector) :=
  match type t with
  | TOKEN_STRING =>
      setValue 2 i (VStr (collectorGuess (asString t) locale true)) cs
  | TOKEN_MISSING => setValue 2 i (VStr "missing") cs
  | TOKEN_EMPTY => setValue 2 i (VStr "empty") cs
  | TOKEN_EOF => Err InvalidToken
  end.

(** Line 110: the chunk-boundary check. *)
Definition at_boundary (lines first_row : Z) (t : Token) : bool :=
  (0 <=? lines) && (lines <=? Z.of_N (row t) - first_row).

Inductive Step :=
| Break (s : LoopState)
| Next (s : LoopState).

(** Lines 104-142: one pass through the loop body with [t_ = t], up to
    the fetch of the next token. *)
Definition melt_body `{MeltEnv} (locale : Locale) (lines first_row : Z)
    (show : bool) (t : Token) (p : Progress) (s : LoopState) : result Step :=
  let cells := ls_cells s + 1 in
  let bar := if show && (Z.rem cells progressStep_ =? 0)
             then ShowBar p :: ls_bar s else ls_bar s in
  if at_boundary lines first_row t then
    Ok (Break (mkLoop (cells - 1) (ls_n s) (ls_last_row s) (ls_collectors s) bar))
  else
    try '(n, cs) := grow cells (ls_n s) p (ls_collectors s) in
    try cs := setValue 0 (cells - 1) (VInt (Z.of_N (row t) + 1)) cs in
    try cs := setValue 1 (cells - 1) (VInt (Z.of_N (col t) + 1)) cs in
    try cs := setValue 3 (cells - 1) (VTok t) cs in
    try cs := writeType locale (cells - 1) t cs in
    Ok (Next (mkLoop cells n (Z.of_N (row t)) cs bar)).

(** Lines 103-144: the loop, entered with [t_ = t] and the tokenizer
    holding [stream] and [p].  It recurses on the tokens still to come;
    the result is the final [t_], tokenizer and locals. *)
Fixpoint melt_loop `{MeltEnv} (locale : Locale) (lines first_row : Z)
    (show : bool) (stream : list (Token * Progress)) (t : Token)
    (p : Progress) (s : LoopState) : result (Token * Tokenizer * LoopState) :=
  if is_eof t then Ok (t, mkTokenizer stream p, s)
  else
    match melt_body locale lines first_row show t p s with
    | Err f => Err f
    | Ok (Break s') => Ok (t, mkTokenizer stream p, s')
    | Ok (Next s') =>
        match stream with
        | [] => Ok (eof_token, mkTokenizer [] p, s')
        | (t', p') :: rest =>
            melt_loop locale lines first_row show rest t' p' s'
        end
    end.

(** Lines 152-158: the final resize. *)
Definition finalize (s : LoopState) : result (list Collector) :=
  if ls_last_row s =? -1 then collectorsResize 0 (ls_collectors s)
  else if ls_cells s <? ls_n s - 1
       then collectorsResize (ls_cells s) (ls_collectors s)
       else Ok (ls_collectors s).

(** [Reader::melt], lines 81-161. *)
Definition melt `{MeltEnv} (locale : Locale) (lines : Z) (r : Reader)
  : result (Z * Reader) :=
  if is_eof (t_ r) then Ok (-1, r)
  else
    let n := if lines <? 0 then 10000 else lines * 10 in
    try cs := collectorsResize n (collectors_ r) in
    let '(t, tk, first_row) :=
      if begun_ r then (t_ r, tokenizer_ r, Z.of_N (row (t_ r)))
      else let (t, tk) := nextToken (tokenizer_ r) in (t, tk, 0) in
    try '(t', tk', s) :=
      melt_loop locale lines first_row (progress_ r) (stream tk) t (now tk)
        (mkLoop 0 n (-1) cs (progressBar_ r)) in
    let bar := if progress_ r then ShowBar (progress tk') :: ls_bar s
               else ls_bar s in
    try cs' := finalize s in
    Ok (ls_cells s - 1,
        mkReader tk' cs' (progress_ r) (StopBar :: bar) true t').

(** ** The table handed to the caller *)

Abbreviation Row := (Value * Value * Value * Value)%type.

(** Lines 63-67: the four vectors, row by row. *)
Definition table (cs : list Collector) : result (list Row) :=
  match cs !! 0%nat, cs !! 1%nat, cs !! 2%nat, cs !! 3%nat with
  | Some c0, Some c1, Some c2, Some c3 => Ok (zip (zip (zip c0 c1) c2) c3)
  | _, _, _, _ => Err OutOfRange
  end.

(** [Reader::meltToDataFrame], lines 58-79, without the warnings and the
    conversion to a tibble. *)
Definition meltToDataFrame `{MeltEnv} (locale : Locale) (lines : Z)
    (r : Reader) : result (list Row * Reader) :=
  match melt locale lines r with
  | Err f => Err f
  | Ok (_, r') =>
      try out := table (collectors_ r') in
      Ok (out, mkReader (tokenizer_ r') (collectorsClear (collectors_ r'))
                 (progress_ r') (progressBar_ r') (begun_ r') (t_ r'))
  end.

(** ** Chunked and whole reading *)

(** Two ways for a caller to read the result of a call that answered
    [ret]: all the rows of the four vectors, as [meltToDataFrame] does, or
    the rows up to the index [ret] only. *)
Definition whole_table (ret : Z) (cs : list Collector) : result (list Row) :=
  table cs.

Definition written_rows (ret : Z) (cs : list Collector) : result (list Row) :=
  try out := table cs in Ok (take (Z.to_nat (ret + 1)) out).

(** The chunked reading of the specification: [melt] with [maxLines = k]
    is called until it answers [-1]; after each call the caller reads the
    rows with [view] and the collectors are cleared, as [meltToDataFrame]
    does.  [fuel] bounds the number of calls. *)
Fixpoint melt_chunked `{MeltEnv}
    (view : Z -> list Collector -> result (list Row)) (fuel : nat)
    (locale : Locale) (k : Z) (r : Reader) : result (list Row) :=
  match fuel with
  | O => Err OutOfFuel
  | S fuel' =>
      match melt locale k r with
      | Err f => Err f
      | Ok (ret, r') =>
          if ret =? -1 then Ok []
          else
            try out := view ret (collectors_ r') in
            try rest :=
              melt_chunked view fuel' locale k
                (mkReader (tokenizer_ r') (collectorsClear (collectors_ r'))
                   (progress_ r') (progressBar_ r') (begun_ r') (t_ r')) in
            Ok (out ++ rest)
      end
  end.

(** A single unbounded melt, read with [view]. *)
Definition melt_whole `{MeltEnv}
    (view : Z -> list Collector -> result (list Row))
    (locale : Locale) (r : Reader) : result (list Row) :=
  match melt locale (-1) r with
  | Err f => Err f
  | Ok (ret, r') => view ret (collectors_ r')
  end.

(** ** The tokens a reader has still to write *)

(** The tokens the tokenizer will hand out before the END sentinel. *)
Fixpoint tokens_of (stream : list (Token * Progress)) : list Token :=
  match stream with
  | [] => []
  | (t, _) :: rest => if is_eof t then [] else t :: tokens_of rest
  end.

(** The same, from inside the loop: the current token comes first. *)
Definition pending (t : Token) (stream : list (Token * Progress))
  : list Token :=
  if is_eof t then [] else t :: tokens_of stream.

(** The same, between two calls of [melt]: before the first call [t_] is
    the default-constructed token and no token has been fetched. *)
Definition upcoming (r : Reader) : list Token :=
  if is_eof (t_ r) then []
  else if begun_ r then t_ r :: tokens_of (stream (tokenizer_ r))
  else tokens_of (stream (tokenizer_ r)).

(** The [first_row] baseline [melt] computes, lines 95-101. *)
Definition first_row_of (r : Reader) : Z :=
  if begun_ r then Z.of_N (row (t_ r)) else 0.

(** Row [i] of the four collectors is [x]. *)
Definition row_is (cs : list Collector) (i : nat) (x : Row) : Prop :=
  cell cs 0 i = Some x.1.1.1 /\ cell cs 1 i = Some x.1.1.2 /\
  cell cs 2 i = Some x.1.2 /\ cell cs 3 i = Some x.2.

(** The row lines 121-140 write for token [t]. *)
Definition melted `{MeltEnv} (locale : Locale) (t : Token) : Row :=
  (VInt (Z.of_N (row t) + 1), VInt (Z.of_N (col t) + 1),
   VStr match type t with
        | TOKEN_STRING => collectorGuess (asString t) locale true
        | TOKEN_MISSING => "missing"
        | TOKEN_EMPTY => "empty"
        | TOKEN_EOF => ""
        end,
   VTok t).

(** Slots [i < k] that hold a value keep it. *)
Definition keeps (k : nat) (cs cs' : list Collector) : Prop :=
  forall j i v, (i < k)%nat -> cell cs j i = Some v -> cell cs' j i = Some v.

(** Every collector has capacity [m]. *)
Definition capacity (m : nat) (cs : list Collector) : Prop :=
  Forall (fun c => length c = m) cs.

(** A progress reading that is a fraction of the source consumed, in
    (0, 1]; [progress_ok]: so is every reading the tokenizer gives once a
    token has been fetched. *)
Definition fraction (p : Progress) : Prop := (0 < p.1 /\ p.1 <= 1)%Q.

Definition progress_ok (r : Reader) : Prop :=
  (begun_ r = true -> is_eof (t_ r) = false ->
   fraction (now (tokenizer_ r))) /\
  Forall (fun x => fraction x.2) (stream (tokenizer_ r)).

(** The same for any property [P] of a reading: it holds of every
    reading a call of [melt] on [r] can consult. *)
Definition readings (P : Progress -> Prop) (r : Reader) : Prop :=
  (begun_ r = true -> is_eof (t_ r) = false -> P (now (tokenizer_ r))) /\
  Forall (fun x => P x.2) (stream (tokenizer_ r)).


(** Modelled from the spec: the type guess (its sources are not under
    src/) answers a guessed semantic type; "missing" and "empty" are the
    markers of the other two token kinds, not types it answers. *)
Definition guess_is_type `{MeltEnv} : Prop :=
  forall s l b, collectorGuess s l b <> "missing" /\
                collectorGuess s l b <> "empty".

(** ** Example inputs *)

Definition example_env : MeltEnv :=
  {| Locale := unit;
     collectorGuess := fun _ _ _ => "character";
     progressStep_ := 10000 |}.

(** Cell [i] of a grid of STRING cells with [cols] columns, row-major. *)
Definition grid_token (cols i : nat) : Token :=
  mkToken TOKEN_STRING (N.of_nat (i / cols)) (N.of_nat (i mod cols)) "x".

(** A source of [rows] x [cols] cells of one byte each: once the cell
    of index [i] is fetched, [i + 1] bytes of [rows * cols] are consumed,
    and the fraction reported is that quotient as a double. *)
Definition grid (rows cols : nat) : list (Token * Progress) :=
  (fun i => (grid_token cols i,
             (round_b64 (Qmake (Z.of_nat (S i)) (Pos.of_nat (rows * cols))),
              N.of_nat (S i))))
    <$> seq 0 (rows * cols).

(** One line with a STRING, a MISSING and an EMPTY cell. *)
Definition mixed_line : list (Token * Progress) :=
  [(mkToken TOKEN_STRING 0 0 "a", (round_b64 (1 # 3), 2%N));
   (mkToken TOKEN_MISSING 0 1 "", (round_b64 (2 # 3), 4%N));
   (mkToken TOKEN_EMPTY 0 2 "", (1%Q, 6%N))].

(** A reader that has handed out its last token. *)
Definition exhausted_reader : Reader :=
  mkReader (mkTokenizer [] (1%Q, 6%N)) [[]; []; []; []] false [StopBar] true
    eof_token.

(** A default-constructed token; any tag but END lets the first call
    of [melt] run. *)
Definition default_token : Token := mkToken TOKEN_EMPTY 0 0 "".

(** A reader as the constructor leaves it: nothing fetched, four
    collectors, no progress bar. *)
Definition new_reader (toks : list (Token * Progress)) : Reader :=
  mkReader (mkTokenizer toks (0%Q, 0%N)) [[]; []; []; []] false []
    false default_token.

(** An environment whose progress bar is shown on every second pass
    through the loop. *)
Definition step2_env : MeltEnv :=
  {| Locale := unit;
     collectorGuess := fun _ _ _ => "character";
     progressStep_ := 2 |}.

(** A new reader with progress reporting switched on. *)
Definition reporting_reader (toks : list (Token * Progress)) : Reader :=
  mkReader (mkTokenizer toks (0%Q, 0%N)) [[]; []; []; []] true []
    false default_token.

(** The same tokens from a tokenizer that reports no progress at all. *)
Definition stalled (toks : list (Token * Progress))
  : list (Token * Progress) :=
  (fun x => (x.1, (0%Q, 0%N))) <$> toks.

(** ** Initialisation *)

(** Modelled from the spec: what [init] reads and sets of a collector
    (its sources are not under src/): the skip flag, and whether the
    warning sink has been attached. *)
Record Column := mkColumn {
  skip : bool;
  warned : bool
}.

(** [collectors_[j]->setWarnings(&warnings_)] *)
Definition setWarnings (c : Column) : Column := mkColumn (skip c) true.

(** Lines 30-35: the loop over the collectors from index [j] on, with
    [kept] the indices pushed so far. *)
Fixpoint keep_loop (j : nat) (cols : list Column) (kept : list nat)
  : list nat * list Column :=
  match cols with
  | [] => (kept, [])
  | c :: rest =>
      if skip c then
        let (kept', rest') := keep_loop (S j) rest kept in (kept', c :: rest')
      else
        let (kept', rest') := keep_loop (S j) rest (kept ++ [j]) in
        (kept', setWarnings c :: rest')
  end.

(** Lines 39-42: [outNames_[i++] = colNames[keptColumn]] for the kept
    columns still to name.  Reading [colNames] or writing [out] past the
    end is a fault. *)
Fixpoint name_loop (i : nat) (kept : list nat) (colNames out : list string)
  : result (list string) :=
  match kept with
  | [] => Ok out
  | k :: rest =>
      match colNames !! k with
      | None => Err OutOfRange
      | Some name =>
          if decide (i < length out)%nat
          then name_loop (S i) rest colNames (<[i := name]> out)
          else Err OutOfRange
      end
  end.

(** The members [init] fills, and the collectors as it leaves them. *)
Record Columns := mkColumns {
  keptColumns_ : list nat;
  outNames_ : list string;
  columns_ : list Column
}.

(** [Reader::init], lines 29-43, as the constructor calls it: on a new
    reader, whose [keptColumns_] and [outNames_] are empty.  The two calls
    on the tokenizer of lines 24-25 fetch no token and are left out. *)
Definition init (cols : list Column) (colNames : list string)
  : result Columns :=
  let (kept, cols') := keep_loop 0 cols [] in
  if (0 <? Z.of_nat (length colNames)) then
    try out := name_loop 0 kept colNames (replicate (length kept) "") in
    Ok (mkColumns kept out cols')
  else Ok (mkColumns kept [] cols').

(** ** Measures *)

(** How often the progress bar was shown. *)
Fixpoint shows (bar : list ProgressEvent) : Z :=
  match bar with
  | [] => 0
  | ShowBar _ :: rest => 1 + shows rest
  | StopBar :: rest => shows rest
  end.

(** Largest relative growth of one rounding: [1 + 2^-53]; and numbers
    just below and just above 1.1, three roundings away from the double
    [overprovision]. *)
Definition ulp_growth : Q := 9007199254740993 # 9007199254740992.
Definition estimate_low : Q := 10999999999999996 # 10000000000000000.
Definition estimate_high : Q := 11000000000000006 # 10000000000000000.

(** [cells / p] times 1.1 stays below [2^63], three roundings included:
    the estimate of line 117 is one that [R_xlen_t] holds. *)
Definition fits (cells : Z) (p : Progress) : Prop :=
  (inject_Z cells * estimate_high < inject_Z (2 ^ 63) * p.1)%Q.

(** Every reading [melt] can consult on [r] is large enough for the
    estimate to fit, whatever the number of cells written by then. *)
Definition roomy (r : Reader) : Prop :=
  readings (fits (Z.of_nat (length (upcoming r)))) r.

(** Three collectors, the middle one skipped, and their names. *)
Definition example_columns : list Column :=
  [mkColumn false false; mkColumn true false; mkColumn false false].

Definition example_names : list string := ["a"; "b"; "c"].

(** * Properties *)

(** ** Rounding *)

Lemma round_half_even_lower num den :
  0 < den -> 2 * num - den <= 2 * den * round_half_even num den.
Proof.
  intros Hd. unfold round_half_even.
  pose proof (Z.div_mod num den ltac:(lia)) as Hdm.
  pose proof (Z.mod_pos_bound num den Hd) as Hr.
  set (m := num / den) in *. set (r := num mod den) in *.
  repeat case_match; rewrite ?Z.ltb_lt, ?Z.ltb_ge in *; nia.
Qed.

Lemma scale_up_pos k : 0 < scale_up k.
Proof. unfold scale_up. apply Z.pow_pos_nonneg; lia. Qed.

Lemma scale_down_pos k : 0 < scale_down k.
Proof. unfold scale_down. apply Z.pow_pos_nonneg; lia. Qed.

Lemma binade_shift_spec a b :
  0 < a ->
  2 ^ 52 * (Z.pos b * scale_down (binade_shift a b)) <= a * scale_up (binade_shift a b).
Proof.
  intros Ha. unfold binade_shift.
  set (k0 := 52 - (Z.log2 a - Z.log2 (Z.pos b))).
  destruct (in_binade a b k0) eqn:Hin.
  - unfold in_binade in Hin. by apply Z.leb_le in Hin.
  - clear Hin.
    destruct (Z.log2_spec a Ha) as [Hal _].
    destruct (Z.log2_spec (Z.pos b) ltac:(lia)) as [_ Hbu].
    pose proof (Z.log2_nonneg a) as Hla.
    pose proof (Z.log2_nonneg (Z.pos b)) as Hlb.
    set (la := Z.log2 a) in *. set (lb := Z.log2 (Z.pos b)) in *.
    unfold scale_up, scale_down.
    destruct (Z_le_gt_dec 0 (k0 + 1)) as [Hk|Hk].
    + rewrite (Z.max_l (k0 + 1)), (Z.max_r (- (k0 + 1))) by lia.
      rewrite Z.pow_0_r, Z.mul_1_r.
      assert (H1 : 2 ^ 52 * 2 ^ Z.succ lb = 2 ^ la * 2 ^ (k0 + 1)).
      { rewrite <- !Z.pow_add_r by lia. f_equal. lia. }
      assert (0 < 2 ^ (k0 + 1)) by (apply Z.pow_pos_nonneg; lia).
      nia.
    + rewrite (Z.max_r (k0 + 1)), (Z.max_l (- (k0 + 1))) by lia.
      rewrite Z.pow_0_r, Z.mul_1_r.
      assert (H1 : 2 ^ 52 * (2 ^ Z.succ lb * 2 ^ (- (k0 + 1))) = 2 ^ la).
      { rewrite <- !Z.pow_add_r by lia. f_equal. lia. }
      assert (0 < 2 ^ (- (k0 + 1))) by (apply Z.pow_pos_nonneg; lia).
      nia.
Qed.

(** One rounding loses at most a relative [2^-53]. *)
Lemma round_pos_lower a b :
  0 < a ->
  (Qmake a b * ulp_factor <= round_pos a b)%Q.
Proof.
  intros Ha. unfold round_pos.
  pose proof (binade_shift_spec a b Ha) as Hs.
  set (k := binade_shift a b) in *.
  pose proof (scale_up_pos k) as HP. pose proof (scale_down_pos k) as HN.
  set (P := scale_up k) in *. set (N := scale_down k) in *.
  pose proof (round_half_even_lower (a * P) (Z.pos b * N) ltac:(lia)) as Hm.
  set (m := round_half_even (a * P) (Z.pos b * N)) in *.
  unfold Qle, Qmult; simpl.
  rewrite Z2Pos.id by lia.
  nia.
Qed.


Lemma round_b64_lower q : (0 <= q -> q * ulp_factor <= round_b64 q)%Q.
Proof.
  destruct q as [a b]. unfold round_b64, Qle. simpl.
  destruct a as [|a|a]; intros Hq; [simpl; lia| |lia].
  apply (round_pos_lower (Z.pos a) b). lia.
Qed.

Lemma round_b64_nonneg q : (0 <= q -> 0 <= round_b64 q)%Q.
Proof.
  intros Hq. eapply Qle_trans; [|by apply round_b64_lower].
  apply Qmult_le_0_compat; [done|]. unfold ulp_factor, Qle. simpl. lia.
Qed.



(** The double nearest to 1.1 is 0x3FF199999999999A. *)
Lemma overprovision_value :
  (overprovision == 2476979795053773 # 2251799813685248)%Q.
Proof. reflexivity. Qed.

(** Ties go to the even significand: [2^53 + 1] rounds down, [2^53 + 3]
    rounds up. *)
Lemma round_b64_ties :
  (round_b64 (inject_Z (2 ^ 53 + 1)) == inject_Z (2 ^ 53))%Q /\
  (round_b64 (inject_Z (2 ^ 53 + 3)) == inject_Z (2 ^ 53 + 4))%Q.
Proof. split; reflexivity. Qed.

(** Line 117 on ten cells: at half the source 22, at a tenth of it 110,
    at all of it 11; a zero fraction has no estimate. *)
Lemma estimate_examples :
  estimate 10 (1 # 2) = Some 22 /\
  estimate 10 (round_b64 (1 # 10)) = Some 110 /\
  estimate 10 1 = Some 11 /\
  estimate 10 0 = None.
Proof. split_and!; reflexivity. Qed.

(** At a fraction of [2^-60] the double is 12682136550675316736, which
    [R_xlen_t] cannot hold. *)
Lemma estimate_example_overflow :
  Qtrunc (estimate_double 10 (1 # 2 ^ 60)) = 12682136550675316736 /\
  estimate 10 (1 # 2 ^ 60) = Some (- 9223372036854775808).
Proof. split; vm_compute; reflexivity. Qed.

Lemma overprovision_margin :
  (1 <= ulp_factor * ulp_factor * ulp_factor * overprovision)%Q.
Proof. vm_compute. discriminate. Qed.

Lemma Qtrunc_ge (z : Z) (q : Q) : (inject_Z z <= q)%Q -> 0 <= z -> z <= Qtrunc q.
Proof.
  intros Hq Hz. unfold Qtrunc.
  assert (Hf : z <= Qfloor q).
  { rewrite <- (Qfloor_Z z). by apply Qfloor_resp_le. }
  case_match; [|done].
  pose proof (Qle_floor_ceiling q) as Hfc. rewrite <- Zle_Qle in Hfc. lia.
Qed.

Lemma Qle_chain (c x1 d x2 x3 u o : Q) :
  (0 <= c -> 0 <= u -> 0 <= o -> 1 <= u * u * u * o ->
   c * u <= x1 -> x1 <= d -> d * u <= x2 -> x2 * o * u <= x3 -> c <= x3)%Q.
Proof.
  intros Hc Hu Ho Hm H1 Hd H2 H3.
  eapply Qle_trans; [|exact H3].
  assert (Hou : (0 <= o * u)%Q) by by apply Qmult_le_0_compat.
  rewrite <- Qmult_assoc.
  eapply Qle_trans; [|apply Qmult_le_compat_r; [exact H2|exact Hou]].
  eapply Qle_trans;
    [|apply Qmult_le_compat_r; [apply Qmult_le_compat_r; [exact Hd|exact Hu]|exact Hou]].
  eapply Qle_trans;
    [|apply Qmult_le_compat_r;
       [apply Qmult_le_compat_r; [exact H1|exact Hu]|exact Hou]].
  assert (E : (c * u * u * (o * u) == c * (u * u * u * o))%Q) by ring.
  rewrite E.
  rewrite <- (Qmult_1_r c) at 1.
  rewrite !(Qmult_comm c). by apply Qmult_le_compat_r.
Qed.

Lemma round_half_even_upper num den :
  0 < den -> 2 * den * round_half_even num den <= 2 * num + den.
Proof.
  intros Hd. unfold round_half_even.
  pose proof (Z.div_mod num den ltac:(lia)) as Hdm.
  pose proof (Z.mod_pos_bound num den Hd) as Hr.
  set (m := num / den) in *. set (r := num mod den) in *.
  repeat case_match; rewrite ?Z.ltb_lt, ?Z.ltb_ge in *; nia.
Qed.

Lemma round_pos_upper a b :
  0 < a -> (round_pos a b <= Qmake a b * ulp_growth)%Q.
Proof.
  intros Ha. unfold round_pos.
  pose proof (binade_shift_spec a b Ha) as Hs.
  set (k := binade_shift a b) in *.
  pose proof (scale_up_pos k) as HP. pose proof (scale_down_pos k) as HN.
  set (P := scale_up k) in *. set (N := scale_down k) in *.
  pose proof (round_half_even_upper (a * P) (Z.pos b * N) ltac:(lia)) as Hm.
  set (m := round_half_even (a * P) (Z.pos b * N)) in *.
  unfold Qle, Qmult, ulp_growth; simpl.
  rewrite Z2Pos.id by lia.
  nia.
Qed.

Lemma round_b64_upper q : (0 <= q -> round_b64 q <= q * ulp_growth)%Q.
Proof.
  destruct q as [a b]. unfold round_b64, Qle. simpl.
  destruct a as [|a|a]; intros Hq; [simpl; lia| |lia].
  apply (round_pos_upper (Z.pos a) b). lia.
Qed.

Lemma Qtrunc_nonneg_bounds q :
  (0 <= q)%Q -> (inject_Z (Qtrunc q) <= q /\ q < inject_Z (Qtrunc q) + 1)%Q.
Proof.
  intros Hq. unfold Qtrunc.
  assert (Hn : 0 <= Qnum q) by (unfold Qle in Hq; simpl in Hq; lia).
  destruct (Qnum q <? 0) eqn:E; [lia|].
  split; [apply Qfloor_le|].
  pose proof (Qlt_floor q) as Hf. rewrite inject_Z_plus in Hf. exact Hf.
Qed.

Lemma Qchain_upper (c p U o hi x1 y x2 x3 n : Q) :
  (0 <= c -> 0 < p -> 0 <= U -> 0 <= o -> U * U * U * o <= hi ->
   x1 <= c * U -> y * p == x1 -> x2 <= y * U ->
   x3 <= x2 * o * U -> n <= x3 ->
   n * p <= c * hi)%Q.
Proof.
  intros Hc Hp HU Ho Hhi H1 Hy H2 H3 Hn.
  assert (Hp' : (0 <= p)%Q) by by apply Qlt_le_weak.
  assert (HoUp : (0 <= o * U * p)%Q) by by repeat apply Qmult_le_0_compat.
  assert (HUoU : (0 <= U * o * U)%Q) by by repeat apply Qmult_le_0_compat.
  apply Qle_trans with (x3 * p)%Q; [by apply Qmult_le_compat_r|].
  apply Qle_trans with (x2 * o * U * p)%Q; [by apply Qmult_le_compat_r|].
  apply Qle_trans with (y * U * (o * U * p))%Q.
  { assert (E : (x2 * o * U * p == x2 * (o * U * p))%Q) by ring.
    rewrite E. by apply Qmult_le_compat_r. }
  assert (E : (y * U * (o * U * p) == x1 * (U * o * U))%Q).
  { rewrite <- Hy. ring. }
  rewrite E.
  apply Qle_trans with (c * U * (U * o * U))%Q; [by apply Qmult_le_compat_r|].
  assert (E2 : (c * U * (U * o * U) == U * U * U * o * c)%Q) by ring.
  rewrite E2, (Qmult_comm c hi). by apply Qmult_le_compat_r.
Qed.

Lemma Qchain_lower (c p u o lo x1 y x2 x3 n : Q) :
  (0 <= c -> 0 < p -> 0 <= u -> 0 <= o -> lo <= u * u * u * o ->
   c * u <= x1 -> y * p == x1 -> y * u <= x2 ->
   x2 * o * u <= x3 -> x3 < n ->
   c * lo < n * p)%Q.
Proof.
  intros Hc Hp Hu Ho Hlo H1 Hy H2 H3 Hn.
  assert (Hp' : (0 <= p)%Q) by by apply Qlt_le_weak.
  assert (Houp : (0 <= o * u * p)%Q) by by repeat apply Qmult_le_0_compat.
  assert (Huou : (0 <= u * o * u)%Q) by by repeat apply Qmult_le_0_compat.
  apply Qle_lt_trans with (x3 * p)%Q; [|by apply Qmult_lt_compat_r].
  apply Qle_trans with (x2 * o * u * p)%Q; [|by apply Qmult_le_compat_r].
  apply Qle_trans with (y * u * (o * u * p))%Q.
  2:{ assert (E : (x2 * o * u * p == x2 * (o * u * p))%Q) by ring.
      rewrite E. by apply Qmult_le_compat_r. }
  assert (E : (y * u * (o * u * p) == x1 * (u * o * u))%Q).
  { rewrite <- Hy. ring. }
  rewrite E.
  apply Qle_trans with (c * u * (u * o * u))%Q; [|by apply Qmult_le_compat_r].
  assert (E2 : (c * u * (u * o * u) == u * u * u * o * c)%Q) by ring.
  rewrite E2, (Qmult_comm c lo). by apply Qmult_le_compat_r.
Qed.

(** The double of line 117 before its conversion: what truncating it
    gives is [cells / p] times 1.1, to within three roundings. *)
Lemma estimate_double_bounds cells p :
  (0 < p)%Q -> 0 <= cells ->
  0 <= Qtrunc (estimate_double cells p) /\
  (inject_Z cells * estimate_low
     < (inject_Z (Qtrunc (estimate_double cells p)) + 1) * p)%Q /\
  (inject_Z (Qtrunc (estimate_double cells p)) * p
     <= inject_Z cells * estimate_high)%Q.
Proof.
  intros Hp Hc. unfold estimate_double.
  set (c := inject_Z cells).
  assert (Hc0 : (0 <= c)%Q) by (unfold c, Qle; simpl; lia).
  pose proof (round_b64_lower c Hc0) as L1.
  pose proof (round_b64_upper c Hc0) as U1.
  pose proof (round_b64_nonneg c Hc0) as N1.
  set (x1 := round_b64 c) in *.
  assert (Hpn : ~ (p == 0)%Q).
  { intros E. rewrite E in Hp. by apply Qlt_irrefl in Hp. }
  assert (Hy : (x1 / p * p == x1)%Q).
  { rewrite Qmult_comm. by apply Qmult_div_r. }
  assert (Hy0 : (0 <= x1 / p)%Q).
  { apply Qle_shift_div_l; [done|]. by rewrite Qmult_0_l. }
  pose proof (round_b64_lower _ Hy0) as L2.
  pose proof (round_b64_upper _ Hy0) as U2.
  pose proof (round_b64_nonneg _ Hy0) as N2.
  set (x2 := round_b64 (x1 / p)) in *.
  assert (Ho : (0 <= overprovision)%Q) by (vm_compute; discriminate).
  assert (Hz0 : (0 <= x2 * overprovision)%Q) by by apply Qmult_le_0_compat.
  pose proof (round_b64_lower _ Hz0) as L3.
  pose proof (round_b64_upper _ Hz0) as U3.
  pose proof (round_b64_nonneg _ Hz0) as N3.
  set (x3 := round_b64 (x2 * overprovision)) in *.
  destruct (Qtrunc_nonneg_bounds x3 N3) as [T1 T2].
  assert (Hn : 0 <= Qtrunc x3).
  { apply Qtrunc_ge; [done|lia]. }
  split; [done|]. split.
  - apply (Qchain_lower c p ulp_factor overprovision estimate_low x1 (x1 / p)
             x2 x3); try done; vm_compute; discriminate.
  - apply (Qchain_upper c p ulp_growth overprovision estimate_high x1 (x1 / p)
             x2 x3); try done; vm_compute; discriminate.
Qed.

(** For a fraction in (0, 1] that double is at least [cells]. *)
Lemma estimate_double_ge cells p :
  (0 < p)%Q -> (p <= 1)%Q -> 0 <= cells ->
  cells <= Qtrunc (estimate_double cells p).
Proof.
  intros Hp0 Hp1 Hc. unfold estimate_double.
  apply Qtrunc_ge; [|done].
  set (c := inject_Z cells).
  assert (Hc0 : (0 <= c)%Q) by (unfold c, Qle; simpl; lia).
  pose proof (round_b64_lower c Hc0) as H1.
  pose proof (round_b64_nonneg c Hc0) as H1'.
  set (x1 := round_b64 c) in *.
  assert (Hdiv : (x1 <= x1 / p)%Q).
  { apply Qle_shift_div_l; [done|].
    rewrite <- (Qmult_1_r x1) at 2.
    rewrite !(Qmult_comm x1). by apply Qmult_le_compat_r. }
  assert (Hd0 : (0 <= x1 / p)%Q) by by eapply Qle_trans.
  pose proof (round_b64_lower _ Hd0) as H2.
  pose proof (round_b64_nonneg _ Hd0) as H2'.
  set (x2 := round_b64 (x1 / p)) in *.
  assert (Ho : (0 <= overprovision)%Q) by (vm_compute; discriminate).
  assert (Hu : (0 <= ulp_factor)%Q) by (vm_compute; discriminate).
  pose proof (round_b64_lower (x2 * overprovision)%Q
                ltac:(by apply Qmult_le_0_compat)) as H3.
  exact (Qle_chain c x1 (x1 / p)%Q x2 _ ulp_factor overprovision
           Hc0 Hu Ho overprovision_margin H1 Hdiv H2 H3).
Qed.

Lemma estimate_Some cells p :
  (0 < p)%Q -> estimate cells p = Some (to_xlen (estimate_double cells p)).
Proof.
  intros Hp. unfold estimate. destruct (Qeq_bool p 0) eqn:Hz; [|done].
  apply Qeq_bool_iff in Hz. rewrite Hz in Hp. by apply Qlt_irrefl in Hp.
Qed.

Lemma to_xlen_cases q :
  (Qtrunc q <= xlen_max /\ xlen_min <= Qtrunc q /\ to_xlen q = Qtrunc q) \/
  ((xlen_max < Qtrunc q \/ Qtrunc q < xlen_min) /\ to_xlen q = xlen_min).
Proof.
  unfold to_xlen. cbv zeta.
  destruct (xlen_min <=? Qtrunc q) eqn:E1; destruct (Qtrunc q <=? xlen_max) eqn:E2;
    simpl; [left|right..]; split_and?; try done; lia.
Qed.

(** When [cells / p] times 1.1 stays below [2^63], the estimate is the
    truncated double. *)
Lemma estimate_fits cells (p : Progress) :
  (0 < p.1)%Q -> 0 <= cells -> fits cells p ->
  estimate cells p.1 = Some (Qtrunc (estimate_double cells p.1)) /\
  0 <= Qtrunc (estimate_double cells p.1) <= xlen_max.
Proof.
  intros Hp Hc Hfit.
  destruct (estimate_double_bounds cells p.1 Hp Hc) as (H0 & _ & Hup).
  set (n := Qtrunc (estimate_double cells p.1)) in *.
  assert (Hn : n < 2 ^ 63).
  { destruct (Z_lt_ge_dec n (2 ^ 63)) as [|Hge]; [done|]. exfalso.
    assert (Hq : (inject_Z (2 ^ 63) * p.1 <= inject_Z n * p.1)%Q).
    { apply Qmult_le_compat_r; [|by apply Qlt_le_weak].
      rewrite <- Zle_Qle. lia. }
    unfold fits in Hfit.
    apply (Qlt_irrefl (inject_Z (2 ^ 63) * p.1)).
    eapply Qle_lt_trans; [exact Hq|]. eapply Qle_lt_trans; [exact Hup|done]. }
  rewrite estimate_Some by done. unfold xlen_max. split; [|lia].
  pose proof (to_xlen_cases (estimate_double cells p.1)) as Hx.
  fold n in Hx. unfold xlen_max, xlen_min in Hx.
  destruct Hx as [(_ & _ & ->)|([?|?] & _)]; [done|lia|lia].
Qed.

(** When it reaches [2^63], the conversion answers the least
    [R_xlen_t]. *)
Lemma estimate_overflow cells p :
  (0 < p)%Q -> 0 <= cells ->
  (inject_Z (2 ^ 63) * p <= inject_Z cells * estimate_low)%Q ->
  estimate cells p = Some xlen_min.
Proof.
  intros Hp Hc Hbig.
  destruct (estimate_double_bounds cells p Hp Hc) as (H0 & Hlow & _).
  set (n := Qtrunc (estimate_double cells p)) in *.
  assert (Hn : 2 ^ 63 <= n).
  { destruct (Z_lt_ge_dec n (2 ^ 63)) as [Hlt|]; [|lia]. exfalso.
    assert (Hq : ((inject_Z n + 1) * p <= inject_Z (2 ^ 63) * p)%Q).
    { apply Qmult_le_compat_r; [|by apply Qlt_le_weak].
      change 1%Q with (inject_Z 1).
      rewrite <- inject_Z_plus, <- Zle_Qle. lia. }
    apply (Qlt_irrefl (inject_Z cells * estimate_low)).
    eapply Qlt_le_trans; [exact Hlow|]. by eapply Qle_trans. }
  rewrite estimate_Some by done. f_equal.
  pose proof (to_xlen_cases (estimate_double cells p)) as Hx.
  fold n in Hx. unfold xlen_max in Hx.
  destruct Hx as [(Hle & _ & _)|(_ & ->)]; [lia|done].
Qed.


(** ** The error monad *)

Lemma bind_Ok {A B} (m : result A) (k : A -> result B) b :
  bind m k = Ok b -> exists a, m = Ok a /\ k a = Ok b.
Proof. destruct m as [a|f]; simpl; [eauto|discriminate]. Qed.

Ltac inv_bind H :=
  let a := fresh "x" in
  let Ha := fresh "H" a in
  apply bind_Ok in H; destruct H as (a & Ha & H).

(** ** Collectors *)

Lemma keeps_refl k cs : keeps k cs cs.
Proof. by intros j i v _ Hc. Qed.

Lemma keeps_trans k cs1 cs2 cs3 :
  keeps k cs1 cs2 -> keeps k cs2 cs3 -> keeps k cs1 cs3.
Proof. intros H1 H2 j i v Hi Hc. eauto. Qed.

Lemma keeps_le k k' cs cs' : (k' <= k)%nat -> keeps k cs cs' -> keeps k' cs cs'.
Proof. intros Hk H j i v Hi Hc. apply H; [lia|done]. Qed.

Lemma capacity_lookup m cs j c : capacity m cs -> cs !! j = Some c -> length c = m.
Proof. intros Hcap Hj. by apply (Forall_lookup_1 _ _ _ _ Hcap Hj). Qed.

Lemma setValue_Ok j i v cs cs' :
  setValue j i v cs = Ok cs' ->
  exists c, cs !! j = Some c /\ 0 <= i < Z.of_nat (length c) /\
            cs' = <[j := <[Z.to_nat i := v]> c]> cs.
Proof.
  unfold setValue. destruct (cs !! j) as [c|] eqn:Hj; [|discriminate].
  destruct (0 <=? i) eqn:H0; destruct (i <? Z.of_nat (length c)) eqn:H1;
    simpl; try discriminate.
  intros [= <-]. exists c. repeat split; lia.
Qed.

Lemma cell_setValue j i v cs cs' :
  setValue j i v cs = Ok cs' -> cell cs' j (Z.to_nat i) = Some v.
Proof.
  intros (c & Hj & Hi & ->)%setValue_Ok. unfold cell.
  rewrite list_lookup_insert_eq by (by eapply lookup_lt_Some). simpl.
  apply list_lookup_insert_eq. lia.
Qed.

Lemma cell_setValue_other j i v cs cs' j' i' :
  setValue j i v cs = Ok cs' -> j' <> j \/ i' <> Z.to_nat i ->
  cell cs' j' i' = cell cs j' i'.
Proof.
  intros Hs Hne. apply setValue_Ok in Hs as (c & Hj & Hi & Hcs).
  subst cs'. unfold cell.
  destruct (decide (j' = j)) as [->|Hjj].
  - rewrite list_lookup_insert_eq by (by eapply lookup_lt_Some).
    rewrite Hj. simpl. apply list_lookup_insert_ne. destruct Hne; congruence.
  - by rewrite list_lookup_insert_ne.
Qed.

Lemma setValue_length j i v cs cs' :
  setValue j i v cs = Ok cs' -> length cs' = length cs.
Proof. intros (c & Hj & Hi & ->)%setValue_Ok. apply length_insert. Qed.

Lemma setValue_capacity j i v cs cs' m :
  setValue j i v cs = Ok cs' -> capacity m cs ->
  capacity m cs' /\ (Z.to_nat i < m)%nat.
Proof.
  intros (c & Hj & Hi & ->)%setValue_Ok Hcap.
  pose proof (capacity_lookup _ _ _ _ Hcap Hj) as Hlen.
  split; [|lia].
  apply Forall_insert; [done|]. by rewrite length_insert.
Qed.

Lemma setValue_keeps j i v cs cs' :
  setValue j i v cs = Ok cs' -> keeps (Z.to_nat i) cs cs'.
Proof.
  intros Hs j' i' v' Hi Hc.
  rewrite (cell_setValue_other _ _ _ _ _ j' i' Hs); [done|lia].
Qed.

(** A write within the reserved slots goes through. *)
Lemma setValue_in_range j i v cs m :
  capacity m cs -> (j < length cs)%nat -> 0 <= i < Z.of_nat m ->
  exists cs', setValue j i v cs = Ok cs'.
Proof.
  intros Hcap Hj Hi. unfold setValue.
  destruct (lookup_lt_is_Some_2 cs j Hj) as [c Hc]. rewrite Hc.
  rewrite (capacity_lookup _ _ _ _ Hcap Hc).
  destruct (0 <=? i) eqn:H0; destruct (i <? Z.of_nat m) eqn:H1; simpl; eauto; lia.
Qed.

Lemma collectorsResize_Ok n cs cs' :
  collectorsResize n cs = Ok cs' ->
  0 <= n /\ cs' = resize (Z.to_nat n) NA <$> cs.
Proof.
  unfold collectorsResize. destruct (n <? 0) eqn:Hn; [discriminate|].
  intros [= <-]. split; [lia|done].
Qed.

Lemma collectorsResize_nonneg n cs :
  0 <= n -> collectorsResize n cs = Ok (resize (Z.to_nat n) NA <$> cs).
Proof. intros Hn. unfold collectorsResize. destruct (n <? 0) eqn:E; [lia|done]. Qed.

Lemma resize_capacity m cs : capacity m (resize m NA <$> cs).
Proof. apply Forall_fmap, Forall_forall. intros c _. simpl. apply length_resize. Qed.

Lemma resize_keeps m cs : keeps m cs (resize m NA <$> cs).
Proof.
  intros j i v Hi. unfold cell. rewrite list_lookup_fmap.
  destruct (cs !! j) as [c|]; simpl; [|done].
  intros Hc. rewrite lookup_resize; [done|lia|by eapply lookup_lt_Some].
Qed.

(** ** The growth check *)

Lemma grow_Ok cells n p cs n' cs' :
  grow cells n p cs = Ok (n', cs') ->
  (cells < n /\ n' = n /\ cs' = cs) \/
  (n <= cells /\ estimate cells p.1 = Some n' /\ 0 <= n' /\
   cs' = resize (Z.to_nat n') NA <$> cs).
Proof.
  unfold grow. destruct (n <=? cells) eqn:Hn.
  - destruct (estimate cells p.1) as [m|]; [|discriminate].
    intros H. inv_bind H. injection H as <- <-.
    apply collectorsResize_Ok in Hx as [Hm ->]. right. repeat split; [lia|done].
  - intros [= <- <-]. left. repeat split. lia.
Qed.

Lemma grow_length cells n p cs n' cs' :
  grow cells n p cs = Ok (n', cs') -> length cs' = length cs.
Proof.
  intros [(_ & _ & ->)|(_ & _ & _ & ->)]%grow_Ok; [done|apply length_fmap].
Qed.

Lemma grow_capacity cells n p cs n' cs' :
  grow cells n p cs = Ok (n', cs') ->
  capacity (Z.to_nat n) cs -> capacity (Z.to_nat n') cs'.
Proof.
  intros [(_ & -> & ->)|(_ & _ & _ & ->)]%grow_Ok Hcap;
    [done|apply resize_capacity].
Qed.

(** A growth followed by a write that goes through kept what was written
    before. *)
Lemma grow_keeps cells n p cs n' cs' j i v cs'' :
  grow cells n p cs = Ok (n', cs') -> setValue j i v cs' = Ok cs'' ->
  keeps (Z.to_nat i) cs cs'.
Proof.
  intros [(_ & _ & ->)|(_ & _ & _ & ->)]%grow_Ok Hset; [apply keeps_refl|].
  apply setValue_Ok in Hset as (c & Hc & Hi & _).
  pose proof (capacity_lookup _ _ _ _ (resize_capacity _ _) Hc) as Hlen.
  eapply keeps_le; [|apply resize_keeps]. lia.
Qed.

(** ** One pass through the loop body *)

Section Body.
Context `{MeltEnv}.
Variables (locale : Locale) (lines first_row : Z) (show : bool).

Lemma writeType_Ok i t cs cs' :
  writeType locale i t cs = Ok cs' ->
  is_eof t = false /\ setValue 2 i (melted locale t).1.2 cs = Ok cs'.
Proof.
  unfold writeType, is_eof, melted. simpl.
  destruct (type t); intros Hw; try done.
Qed.

Lemma melt_body_Break t p s s' :
  melt_body locale lines first_row show t p s = Ok (Break s') ->
  at_boundary lines first_row t = true /\
  ls_cells s' = ls_cells s /\ ls_n s' = ls_n s /\
  ls_last_row s' = ls_last_row s /\ ls_collectors s' = ls_collectors s.
Proof.
  unfold melt_body. destruct (at_boundary lines first_row t).
  - intros [= <-]. simpl. repeat split. lia.
  - intros Hb. inv_bind Hb. destruct x as [n cs]. do 4 inv_bind Hb. done.
Qed.

Lemma melt_body_Next t p s s' :
  melt_body locale lines first_row show t p s = Ok (Next s') ->
  0 <= ls_cells s ->
  at_boundary lines first_row t = false /\ is_eof t = false /\
  ls_cells s' = ls_cells s + 1 /\ ls_last_row s' = Z.of_N (row t) /\
  row_is (ls_collectors s') (Z.to_nat (ls_cells s)) (melted locale t) /\
  keeps (Z.to_nat (ls_cells s)) (ls_collectors s) (ls_collectors s') /\
  length (ls_collectors s') = length (ls_collectors s) /\
  (capacity (Z.to_nat (ls_n s)) (ls_collectors s) ->
   capacity (Z.to_nat (ls_n s')) (ls_collectors s') /\
   ls_cells s' <= ls_n s' /\ ls_n s <= ls_n s').
Proof.
  unfold melt_body. destruct (at_boundary lines first_row t); [done|].
  replace (ls_cells s + 1 - 1) with (ls_cells s) by lia.
  intros Hb Hc0. inv_bind Hb. destruct x as [n cs].
  inv_bind Hb. inv_bind Hb. inv_bind Hb. inv_bind Hb.
  injection Hb as <-. simpl.
  apply writeType_Ok in Hx3 as [Heof Hx3].
  set (k := ls_cells s) in *.
  repeat split; try done.
  - rewrite (cell_setValue_other _ _ _ _ _ 0%nat (Z.to_nat k) Hx3) by lia.
    rewrite (cell_setValue_other _ _ _ _ _ 0%nat (Z.to_nat k) Hx2) by lia.
    rewrite (cell_setValue_other _ _ _ _ _ 0%nat (Z.to_nat k) Hx1) by lia.
    by eapply cell_setValue.
  - rewrite (cell_setValue_other _ _ _ _ _ 1%nat (Z.to_nat k) Hx3) by lia.
    rewrite (cell_setValue_other _ _ _ _ _ 1%nat (Z.to_nat k) Hx2) by lia.
    by eapply cell_setValue.
  - by eapply cell_setValue.
  - rewrite (cell_setValue_other _ _ _ _ _ 3%nat (Z.to_nat k) Hx3) by lia.
    by eapply cell_setValue.
  - eapply keeps_trans; [by eapply grow_keeps|].
    eapply keeps_trans; [by eapply setValue_keeps|].
    eapply keeps_trans; [by eapply setValue_keeps|].
    eapply keeps_trans; by eapply setValue_keeps.
  - rewrite (setValue_length _ _ _ _ _ Hx3), (setValue_length _ _ _ _ _ Hx2),
      (setValue_length _ _ _ _ _ Hx1), (setValue_length _ _ _ _ _ Hx0).
    by eapply grow_length.
  - eapply setValue_capacity; [done|]. eapply setValue_capacity; [done|].
    eapply setValue_capacity; [done|]. eapply setValue_capacity; [done|].
    by eapply grow_capacity.
  - pose proof (grow_capacity _ _ _ _ _ _ Hx H0) as Hcap.
    destruct (setValue_capacity _ _ _ _ _ _ Hx0 Hcap) as [_ Hlt]. lia.
  - pose proof (grow_capacity _ _ _ _ _ _ Hx H0) as Hcap.
    destruct (setValue_capacity _ _ _ _ _ _ Hx0 Hcap) as [_ Hlt].
    apply grow_Ok in Hx as [(_ & -> & _)|(Hn & _)]; lia.
Qed.

End Body.

(** ** The loop *)

Lemma row_is_keeps k cs cs' i x :
  keeps k cs cs' -> (i < k)%nat -> row_is cs i x -> row_is cs' i x.
Proof. intros Hk Hi (H0 & H1 & H2 & H3). repeat split; by apply Hk. Qed.

Lemma pending_cons t p toks : tokens_of ((t, p) :: toks) = pending t toks.
Proof. done. Qed.

Section Loop.
Context `{MeltEnv}.
Variables (locale : Locale) (lines first_row : Z) (show : bool).

(** What a loop run that goes through has done: it wrote the tokens [ws],
    the longest run of pending tokens the boundary check lets pass, into
    the rows from [ls_cells s] on, and left the rest pending. *)
Lemma melt_loop_spec toks : forall t p s t' tk' s',
  melt_loop locale lines first_row show toks t p s = Ok (t', tk', s') ->
  0 <= ls_cells s ->
  exists ws,
    pending t toks = ws ++ pending t' (stream tk') /\
    Forall (fun w => at_boundary lines first_row w = false) ws /\
    (is_eof t' = true \/ at_boundary lines first_row t' = true) /\
    ls_cells s' = ls_cells s + Z.of_nat (length ws) /\
    (forall i w, ws !! i = Some w ->
       row_is (ls_collectors s') (Z.to_nat (ls_cells s) + i) (melted locale w)) /\
    keeps (Z.to_nat (ls_cells s)) (ls_collectors s) (ls_collectors s') /\
    length (ls_collectors s') = length (ls_collectors s) /\
    (ws = [] -> ls_last_row s' = ls_last_row s /\ ls_n s' = ls_n s /\
                ls_collectors s' = ls_collectors s) /\
    (ws <> [] -> 0 <= ls_last_row s') /\
    (capacity (Z.to_nat (ls_n s)) (ls_collectors s) ->
     capacity (Z.to_nat (ls_n s')) (ls_collectors s') /\
     ls_n s <= ls_n s' /\ (ws <> [] -> ls_cells s' <= ls_n s')).
Proof.
  induction toks as [|[t1 p1] rest IH]; intros t p s t' tk' s' Hl Hc;
    simpl in Hl; destruct (is_eof t) eqn:Heof.
  1,3: injection Hl as <- <- <-; exists []; unfold pending; rewrite Heof;
       simpl; rewrite Z.add_0_r;
       split_and!; auto using keeps_refl; try done; by intros ? ? [=].
  all: destruct (melt_body locale lines first_row show t p s) as [[s1|s1]|f]
         eqn:Hb; [| |discriminate].
  1,3: injection Hl as <- <- <-;
       apply melt_body_Break in Hb as (Hat & Hcells & Hn & Hlast & Hcs);
       exists []; simpl; rewrite Hcells, Hn, Hlast, Hcs, Z.add_0_r;
       split_and!; auto using keeps_refl; try done; by intros ? ? [=].
  - injection Hl as <- <- <-.
    apply melt_body_Next in Hb
      as (Hat & _ & Hcells & Hlast & Hrow & Hkeep & Hlen & Hcap); [|done].
    exists [t]. unfold pending at 1. rewrite Heof. simpl.
    split_and!; auto; try done; try lia.
    + intros [|i] w [=]; subst. by rewrite Nat.add_0_r.
    + intros Hcap0. destruct (Hcap Hcap0) as (? & ? & ?). done.
  - apply melt_body_Next in Hb
      as (Hat & _ & Hcells & Hlast & Hrow & Hkeep & Hlen & Hcap); [|done].
    apply IH in Hl
      as (ws & Hpend & Hall & Hstop & Hcells' & Hrows & Hkeep' & Hlen' &
          Hnil & Hcons & Hcap'); [|lia].
    rewrite Hcells in *.
    replace (Z.to_nat (ls_cells s + 1)) with (S (Z.to_nat (ls_cells s)))
      in * by lia.
    exists (t :: ws). unfold pending at 1. rewrite Heof, pending_cons, Hpend.
    simpl. split_and!; auto; try done; try lia.
    + intros [|i] w Hw; simpl in Hw.
      * injection Hw as <-. rewrite Nat.add_0_r.
        eapply row_is_keeps; [exact Hkeep'|lia|done].
      * replace (Z.to_nat (ls_cells s) + S i)%nat
          with (S (Z.to_nat (ls_cells s)) + i)%nat by lia.
        by apply Hrows.
    + eapply keeps_trans; [exact Hkeep|]. eapply keeps_le; [|exact Hkeep']. lia.
    + intros _. destruct ws as [|w ws']; [|apply Hcons; done].
      destruct Hnil as (-> & _); [done|]. lia.
    + intros Hcap0. destruct (Hcap Hcap0) as (Hc1 & Hle1 & Hn1).
      destruct (Hcap' Hc1) as (Hc2 & Hn2 & Hle2).
      split_and!; [done|lia|intros _].
      destruct ws as [|w ws']; [|apply Hle2; done].
      destruct Hnil as (_ & Hn' & _); [done|]. simpl in *. lia.
Qed.

End Loop.

(** Over a whole run of the loop the capacity only grows, and the
    collectors stay in step with [n]. *)
Lemma melt_loop_never_shrinks `{MeltEnv} (locale : Locale)
    (lines first_row : Z) (show : bool) toks t p s t' tk' s' :
  melt_loop locale lines first_row show toks t p s = Ok (t', tk', s') ->
  0 <= ls_cells s -> capacity (Z.to_nat (ls_n s)) (ls_collectors s) ->
  capacity (Z.to_nat (ls_n s')) (ls_collectors s') /\ ls_n s <= ls_n s'.
Proof.
  intros Hl Hc Hcap.
  apply melt_loop_spec in Hl as (ws & _ & _ & _ & _ & _ & _ & _ & _ & _ & Hn);
    [|done].
  destruct (Hn Hcap) as (? & ? & _). done.
Qed.

(** ** One call of [melt] *)

Lemma finalize_Ok s cs' :
  finalize s = Ok cs' ->
  (ls_last_row s = -1 /\ cs' = resize 0 NA <$> ls_collectors s) \/
  (ls_last_row s <> -1 /\ ls_cells s < ls_n s - 1 /\ 0 <= ls_cells s /\
   cs' = resize (Z.to_nat (ls_cells s)) NA <$> ls_collectors s) \/
  (ls_last_row s <> -1 /\ ls_n s - 1 <= ls_cells s /\ cs' = ls_collectors s).
Proof.
  unfold finalize. destruct (ls_last_row s =? -1) eqn:Hl.
  - intros [_ ->]%collectorsResize_Ok. left. split; [lia|done].
  - destruct (ls_cells s <? ls_n s - 1) eqn:Hc.
    + intros [? ->]%collectorsResize_Ok. right; left. split_and!; (lia || done).
    + intros [= <-]. right; right. split_and!; (lia || done).
Qed.

Section Melt.
Context `{MeltEnv}.
Variables (locale : Locale) (lines : Z).

(** The loop as [melt] enters it: the current token and the tokens to
    come are the reader's upcoming tokens. *)
Lemma melt_entry r :
  is_eof (t_ r) = false ->
  exists t tk,
    (if begun_ r then (t_ r, tokenizer_ r, Z.of_N (row (t_ r)))
     else let (t, tk) := nextToken (tokenizer_ r) in (t, tk, 0))
    = (t, tk, first_row_of r) /\
    pending t (stream tk) = upcoming r /\
    (begun_ r = true -> t = t_ r /\ tk = tokenizer_ r) /\
    (begun_ r = false -> (t, tk) = nextToken (tokenizer_ r)).
Proof.
  intros Heof. unfold upcoming, first_row_of. rewrite Heof.
  destruct (begun_ r).
  - exists (t_ r), (tokenizer_ r). unfold pending. by rewrite Heof.
  - unfold nextToken. destruct (stream (tokenizer_ r)) as [|[t p] rest] eqn:Hs.
    + exists eof_token, (tokenizer_ r). by rewrite Hs.
    + exists t, (mkTokenizer rest p). done.
Qed.

(** What a call of [melt] that goes through has done. *)
Lemma melt_spec r ret r' :
  melt locale lines r = Ok (ret, r') -> is_eof (t_ r) = false ->
  exists ws,
    upcoming r = ws ++ upcoming r' /\
    Forall (fun w => at_boundary lines (first_row_of r) w = false) ws /\
    (is_eof (t_ r') = true \/
     at_boundary lines (first_row_of r) (t_ r') = true) /\
    ret = Z.of_nat (length ws) - 1 /\
    (forall i w, ws !! i = Some w ->
       row_is (collectors_ r') i (melted locale w)) /\
    begun_ r' = true /\
    length (collectors_ r') = length (collectors_ r) /\
    exists m, capacity m (collectors_ r') /\
              (length ws <= m <= length ws + 1)%nat /\ (ws = [] -> m = 0%nat).
Proof.
  intros Hm Heof. unfold melt in Hm. rewrite Heof in Hm.
  inv_bind Hm. apply collectorsResize_Ok in Hx as [Hn ->].
  destruct (melt_entry r Heof) as (t & tk & Hent & Hup & _).
  rewrite Hent in Hm.
  inv_bind Hm. destruct x as [[t' tk'] s]. inv_bind Hm.
  injection Hm as <- <-. simpl.
  apply melt_loop_spec in Hx
    as (ws & Hpend & Hall & Hstop & Hcells & Hrows & _ & Hlen & Hnil & Hcons &
        Hcap); [|simpl; lia].
  simpl in *. rewrite length_fmap in Hlen.
  destruct (Hcap (resize_capacity _ _)) as (Hcap' & _ & Hle). clear Hcap.
  exists ws. split_and!; try done.
  - rewrite <- Hup, Hpend. unfold upcoming, pending. simpl.
    by destruct (is_eof t').
  - lia.
  - intros i w Hw. pose proof (lookup_lt_Some _ _ _ Hw) as Hi.
    apply finalize_Ok in Hx0
      as [(Hl & _)|[(_ & _ & _ & ->)|(_ & _ & ->)]].
    + destruct ws; [done|]. pose proof (Hcons ltac:(done)). lia.
    + eapply row_is_keeps; [apply resize_keeps|lia|by apply Hrows].
    + by apply Hrows.
  - apply finalize_Ok in Hx0
      as [(Hl & ->)|[(Hl & _ & _ & ->)|(Hl & ? & ->)]].
    + by rewrite length_fmap.
    + by rewrite length_fmap.
    + done.
  - apply finalize_Ok in Hx0
      as [(Hl & ->)|[(Hl & _ & _ & ->)|(Hl & ? & ->)]].
    + exists 0%nat. split; [apply resize_capacity|].
      destruct ws; [simpl; split; [lia|done]|].
      pose proof (Hcons ltac:(done)). lia.
    + exists (Z.to_nat (ls_cells s)). split; [apply resize_capacity|].
      split; [lia|]. intros ->. destruct Hnil as (? & _); [done|]. lia.
    + exists (Z.to_nat (ls_n s)). split; [done|].
      destruct ws as [|w ws']; [destruct Hnil as (? & _); [done|]; lia|].
      pose proof (Hle ltac:(done)). simpl in *. split; [lia|done].
Qed.

(** A call on an exhausted reader answers [-1] and changes nothing. *)
Lemma melt_eof r : is_eof (t_ r) = true -> melt locale lines r = Ok (-1, r).
Proof. intros Heof. unfold melt. by rewrite Heof. Qed.

End Melt.

(** ** Calls that cannot fault *)

Lemma fits_le c c' p : c' <= c -> fits c p -> fits c' p.
Proof.
  intros Hle Hfit. unfold fits in *.
  eapply Qle_lt_trans; [|exact Hfit].
  apply Qmult_le_compat_r; [by rewrite <- Zle_Qle|].
  vm_compute; discriminate.
Qed.

Lemma grow_ok cells n p cs :
  fraction p -> fits cells p -> 0 <= cells -> 0 <= n ->
  capacity (Z.to_nat n) cs ->
  exists n' cs',
    grow cells n p cs = Ok (n', cs') /\ capacity (Z.to_nat n') cs' /\
    length cs' = length cs /\ n <= n' /\ cells <= n' /\
    (n <= cells -> n' = Qtrunc (estimate_double cells p.1) /\
                   cs' = resize (Z.to_nat n') NA <$> cs) /\
    (cells < n -> n' = n /\ cs' = cs).
Proof.
  intros [Hp0 Hp1] Hfit Hc Hn Hcap. unfold grow.
  destruct (n <=? cells) eqn:Hfire.
  - destruct (estimate_fits cells p Hp0 Hc Hfit) as [-> _].
    pose proof (estimate_double_ge cells p.1 Hp0 Hp1 Hc) as Hge.
    set (n' := Qtrunc (estimate_double cells p.1)) in *.
    rewrite collectorsResize_nonneg by lia. simpl.
    exists n', (resize (Z.to_nat n') NA <$> cs).
    split_and!; try done; try lia; [apply resize_capacity|apply length_fmap].
  - exists n, cs. split_and!; try done; lia.
Qed.


Section NoFault.
Context `{MeltEnv}.
Variables (locale : Locale) (lines first_row : Z) (show : bool).

Lemma writeType_in_range i t cs m :
  is_eof t = false -> capacity m cs -> (2 < length cs)%nat ->
  0 <= i < Z.of_nat m ->
  exists cs', writeType locale i t cs = Ok cs'.
Proof.
  unfold writeType, is_eof. intros Heof Hcap Hlen Hi.
  destruct (type t); try done; by eapply setValue_in_range.
Qed.

(** Once the growth check has left room for the cell counted, the four
    writes of the pass go through. *)
Lemma melt_body_writes t p s n' cs0 :
  is_eof t = false -> at_boundary lines first_row t = false ->
  0 <= ls_cells s ->
  grow (ls_cells s + 1) (ls_n s) p (ls_collectors s) = Ok (n', cs0) ->
  capacity (Z.to_nat n') cs0 -> (4 <= length cs0)%nat ->
  ls_cells s + 1 <= n' ->
  exists s',
    melt_body locale lines first_row show t p s = Ok (Next s') /\
    ls_n s' = n' /\ ls_cells s' = ls_cells s + 1 /\
    length (ls_collectors s') = length cs0 /\
    capacity (Z.to_nat n') (ls_collectors s').
Proof.
  intros Heof Hb Hc Hg Hcap0 Hlen0 Hroom. unfold melt_body.
  rewrite Hb. replace (ls_cells s + 1 - 1) with (ls_cells s) by lia.
  rewrite Hg. simpl.
  assert (Hi : 0 <= ls_cells s < Z.of_nat (Z.to_nat n')) by lia.
  destruct (setValue_in_range 0 (ls_cells s) (VInt (Z.of_N (row t) + 1)) cs0 _
              Hcap0 ltac:(lia) Hi) as [cs1 H1].
  rewrite H1. simpl.
  destruct (setValue_capacity _ _ _ _ _ _ H1 Hcap0) as [Hcap1 _].
  pose proof (setValue_length _ _ _ _ _ H1) as Hlen1.
  destruct (setValue_in_range 1 (ls_cells s) (VInt (Z.of_N (col t) + 1)) cs1 _
              Hcap1 ltac:(lia) Hi) as [cs2 H2].
  rewrite H2. simpl.
  destruct (setValue_capacity _ _ _ _ _ _ H2 Hcap1) as [Hcap2 _].
  pose proof (setValue_length _ _ _ _ _ H2) as Hlen2.
  destruct (setValue_in_range 3 (ls_cells s) (VTok t) cs2 _
              Hcap2 ltac:(lia) Hi) as [cs3 H3].
  rewrite H3. simpl.
  destruct (setValue_capacity _ _ _ _ _ _ H3 Hcap2) as [Hcap3 _].
  pose proof (setValue_length _ _ _ _ _ H3) as Hlen3.
  destruct (writeType_in_range (ls_cells s) t cs3 _ Heof Hcap3 ltac:(lia) Hi)
    as [cs4 H4].
  rewrite H4. simpl.
  apply writeType_Ok in H4 as [_ H4].
  destruct (setValue_capacity _ _ _ _ _ _ H4 Hcap3) as [Hcap4 _].
  pose proof (setValue_length _ _ _ _ _ H4) as Hlen4.
  eexists. split; [done|]. simpl. split_and!; [done|done|lia|done].
Qed.

Lemma melt_body_ok t p s :
  is_eof t = false -> fraction p -> fits (ls_cells s + 1) p ->
  0 <= ls_cells s -> 0 <= ls_n s ->
  (4 <= length (ls_collectors s))%nat ->
  capacity (Z.to_nat (ls_n s)) (ls_collectors s) ->
  exists st, melt_body locale lines first_row show t p s = Ok st /\
    forall s', st = Next s' ->
      ls_cells s' = ls_cells s + 1 /\
      0 <= ls_n s' /\ (4 <= length (ls_collectors s'))%nat /\
      capacity (Z.to_nat (ls_n s')) (ls_collectors s').
Proof.
  intros Heof Hp Hfit Hc Hn Hlen Hcap.
  destruct (at_boundary lines first_row t) eqn:Hb.
  { unfold melt_body. rewrite Hb. eexists; split; [done|done]. }
  destruct (grow_ok (ls_cells s + 1) (ls_n s) p (ls_collectors s))
    as (n' & cs0 & Hg & Hcap0 & Hlen0 & Hn' & Hc' & _); try done; [lia|].
  destruct (melt_body_writes t p s n' cs0 Heof Hb Hc Hg Hcap0 ltac:(lia) Hc')
    as (s1 & -> & Hn1 & Hc1 & Hl1 & Hcap1).
  eexists. split; [done|]. intros s' [= <-].
  rewrite Hn1. split_and!; [done|lia|lia|done].
Qed.


Lemma melt_loop_ok c toks : forall t p s,
  (is_eof t = false -> fraction p /\ fits c p) ->
  Forall (fun x => fraction x.2 /\ fits c x.2) toks ->
  ls_cells s + Z.of_nat (length (pending t toks)) <= c ->
  0 <= ls_cells s -> 0 <= ls_n s -> (4 <= length (ls_collectors s))%nat ->
  capacity (Z.to_nat (ls_n s)) (ls_collectors s) ->
  exists res, melt_loop locale lines first_row show toks t p s = Ok res.
Proof.
  induction toks as [|[t1 p1] rest IH];
    intros t p s Hp Hall Hroom Hc Hn Hlen Hcap;
    simpl; destruct (is_eof t) eqn:Heof; eauto.
  all: unfold pending in Hroom; rewrite Heof in Hroom; cbn [length] in Hroom.
  all: destruct (Hp eq_refl) as [Hfr Hfit].
  all: destruct (melt_body_ok t p s Heof Hfr
                   ltac:(eapply fits_le; [|exact Hfit]; lia) Hc Hn Hlen Hcap)
         as ([s'|s'] & Hb & Hinv); rewrite Hb; eauto.
  destruct (Hinv s' eq_refl) as (Hcells & Hn' & Hlen' & Hcap').
  apply Forall_cons in Hall as [Hp1 Hall].
  apply IH; try done; [|lia]. rewrite Hcells.
  rewrite pending_cons in Hroom. lia.
Qed.


End NoFault.

Lemma readings_entry (P : Progress -> Prop) r t tk :
  readings P r -> is_eof (t_ r) = false ->
  (begun_ r = true -> t = t_ r /\ tk = tokenizer_ r) ->
  (begun_ r = false -> (t, tk) = nextToken (tokenizer_ r)) ->
  (is_eof t = false -> P (now tk)) /\ Forall (fun x => P x.2) (stream tk).
Proof.
  intros [Hnow Hall] Heof Hb Hnb. destruct (begun_ r) eqn:Hbegun.
  - destruct (Hb eq_refl) as [-> ->]. split; [intros _; by apply Hnow|done].
  - specialize (Hnb eq_refl). unfold nextToken in Hnb.
    destruct (stream (tokenizer_ r)) as [|[t0 p0] rest] eqn:Hs;
      injection Hnb as -> ->.
    + split; [done|by rewrite Hs].
    + apply Forall_cons in Hall as [? ?]. by split.
Qed.

(** A call goes through when every reading is a fraction in (0, 1] with
    which the estimate for [c] cells fits, and no more than [c] tokens
    are upcoming. *)
Lemma melt_ok `{MeltEnv} (locale : Locale) (lines : Z) c r :
  readings (fun p => fraction p /\ fits c p) r ->
  Z.of_nat (length (upcoming r)) <= c ->
  (4 <= length (collectors_ r))%nat ->
  exists ret r', melt locale lines r = Ok (ret, r').
Proof.
  intros Hr Hroom Hlen. unfold melt.
  destruct (is_eof (t_ r)) eqn:Heof; [eauto|].
  set (n := if lines <? 0 then 10000 else lines * 10).
  assert (Hn : 0 <= n) by (unfold n; destruct (lines <? 0) eqn:E; lia).
  rewrite collectorsResize_nonneg by done. simpl.
  destruct (melt_entry r Heof) as (t & tk & -> & Hup & Hb & Hnb).
  destruct (readings_entry _ r t tk Hr Heof Hb Hnb) as [Hnow Hall].
  destruct (melt_loop_ok locale lines (first_row_of r) (progress_ r) c
              (stream tk) t (now tk)
              (mkLoop 0 n (-1) (resize (Z.to_nat n) NA <$> collectors_ r)
                 (progressBar_ r)))
    as [[[t' tk'] s] Hl]; simpl; try done.
  - rewrite Hup. lia.
  - by rewrite length_fmap.
  - apply resize_capacity.
  - rewrite Hl. simpl.
    apply melt_loop_spec in Hl as (ws & _ & _ & _ & Hcells & _); [|simpl; lia].
    simpl in Hcells. unfold finalize.
    destruct (ls_last_row s =? -1); [rewrite collectorsResize_nonneg by lia; eauto|].
    destruct (ls_cells s <? ls_n s - 1);
      [rewrite collectorsResize_nonneg by lia; eauto|eauto].
Qed.


(** ** The written rows *)

Lemma tokens_of_not_eof toks : Forall (fun w => is_eof w = false) (tokens_of toks).
Proof.
  induction toks as [|[t p] rest IH]; simpl; [done|].
  destruct (is_eof t) eqn:Heof; [done|]. by constructor.
Qed.

Lemma upcoming_not_eof r : Forall (fun w => is_eof w = false) (upcoming r).
Proof.
  unfold upcoming. destruct (is_eof (t_ r)) eqn:Heof; [done|].
  destruct (begun_ r); [constructor; [done|]|]; apply tokens_of_not_eof.
Qed.

Lemma upcoming_eof r : is_eof (t_ r) = true -> upcoming r = [].
Proof. intros Heof. unfold upcoming. by rewrite Heof. Qed.

Lemma upcoming_begun r :
  begun_ r = true -> is_eof (t_ r) = false ->
  upcoming r = t_ r :: tokens_of (stream (tokenizer_ r)).
Proof. intros Hb Heof. unfold upcoming. by rewrite Heof, Hb. Qed.

Lemma upcoming_head_begun r w :
  begun_ r = true -> head (upcoming r) = Some w -> w = t_ r.
Proof.
  intros Hb. unfold upcoming. rewrite Hb.
  destruct (is_eof (t_ r)); [done|]. by intros [= <-].
Qed.

(** Every call that goes through wrote a prefix [ws] of the upcoming
    tokens, row by row from index 0, and answered [length ws - 1]. *)
Lemma melt_written `{MeltEnv} (locale : Locale) (lines : Z) r ret r' :
  melt locale lines r = Ok (ret, r') ->
  exists ws,
    upcoming r = ws ++ upcoming r' /\
    ret = Z.of_nat (length ws) - 1 /\
    forall i w, ws !! i = Some w ->
      is_eof w = false /\ row_is (collectors_ r') i (melted locale w).
Proof.
  intros Hm. destruct (is_eof (t_ r)) eqn:Heof.
  - rewrite melt_eof in Hm by done. injection Hm as <- <-.
    exists []. by rewrite upcoming_eof.
  - destruct (melt_spec locale lines r ret r' Hm Heof)
      as (ws & Hup & _ & _ & Hret & Hrows & _).
    exists ws. split_and!; try done. intros i w Hw. split; [|by apply Hrows].
    pose proof (upcoming_not_eof r) as Hall. rewrite Hup in Hall.
    apply Forall_app in Hall as [Hall _].
    by apply (Forall_lookup_1 _ _ _ _ Hall Hw).
Qed.

(** The same, with where the prefix ends: at the end of the input or at
    the first token [lines] rows or more past the baseline. *)
Lemma melt_written_chunk `{MeltEnv} (locale : Locale) (lines : Z) r ret r' :
  melt locale lines r = Ok (ret, r') ->
  exists ws,
    upcoming r = ws ++ upcoming r' /\
    ret = Z.of_nat (length ws) - 1 /\
    (forall w', head (upcoming r') = Some w' ->
       0 <= lines /\ first_row_of r + lines <= Z.of_N (row w')) /\
    forall i w, ws !! i = Some w ->
      is_eof w = false /\ row_is (collectors_ r') i (melted locale w).
Proof.
  intros Hm. destruct (is_eof (t_ r)) eqn:Heof.
  - rewrite melt_eof in Hm by done. injection Hm as <- <-.
    exists []. rewrite upcoming_eof by done. by split_and!.
  - destruct (melt_spec locale lines r ret r' Hm Heof)
      as (ws & Hup & _ & Hstop & Hret & Hrows & Hbegun & _).
    exists ws. split_and!; try done.
    + intros w' Hw'. pose proof (upcoming_head_begun r' w' Hbegun Hw') as ->.
      destruct Hstop as [Hstop|Hstop].
      * by rewrite (upcoming_eof r' Hstop) in Hw'.
      * unfold at_boundary in Hstop.
        apply andb_true_iff in Hstop as [H0 H1]. lia.
    + intros i w Hw. split; [|by apply Hrows].
      pose proof (upcoming_not_eof r) as Hall. rewrite Hup in Hall.
      apply Forall_app in Hall as [Hall _].
      by apply (Forall_lookup_1 _ _ _ _ Hall Hw).
Qed.

(** The loop of [melt_loop] is the loop of the source: test [t_], run the
    body, fetch with [nextToken], again. *)
Lemma melt_loop_nextToken `{MeltEnv} (locale : Locale) (lines first_row : Z)
    (show : bool) (tk : Tokenizer) (t : Token) (s : LoopState) :
  melt_loop locale lines first_row show (stream tk) t (now tk) s =
  if is_eof t then Ok (t, tk, s)
  else
    match melt_body locale lines first_row show t (progress tk) s with
    | Err f => Err f
    | Ok (Break s') => Ok (t, tk, s')
    | Ok (Next s') =>
        let (t', tk') := nextToken tk in
        melt_loop locale lines first_row show (stream tk') t' (now tk') s'
    end.
Proof.
  destruct tk as [toks p]. unfold nextToken, progress. simpl.
  destruct toks as [|[t1 p1] rest]; simpl; destruct (is_eof t); try done;
    destruct (melt_body locale lines first_row show t p s) as [[s'|s']|f];
    done.
Qed.

(** After a call every collector has one capacity: the number of cells
    written or one more, and 0 when none was written. *)
Lemma melt_capacity_bounds `{MeltEnv} (locale : Locale) (lines : Z) r ret r' :
  melt locale lines r = Ok (ret, r') -> is_eof (t_ r) = false ->
  exists m, capacity m (collectors_ r') /\
            ret + 1 <= Z.of_nat m <= ret + 2 /\ (ret = -1 -> m = 0%nat).
Proof.
  intros Hm Heof.
  destruct (melt_spec locale lines r ret r' Hm Heof)
    as (ws & _ & _ & _ & -> & _ & _ & _ & m & Hcap & Hm1 & Hm0).
  exists m. split_and!; [done|lia|lia|].
  intros Hret. apply Hm0. destruct ws; [done|simpl in Hret; lia].
Qed.

(** ** Reading in chunks *)

Lemma table_written `{MeltEnv} (locale : Locale) cs ws :
  (4 <= length cs)%nat ->
  (forall i w, ws !! i = Some w -> row_is cs i (melted locale w)) ->
  written_rows (Z.of_nat (length ws) - 1) cs = Ok (melted locale <$> ws).
Proof.
  intros Hlen Hrows. unfold written_rows, table.
  destruct cs as [|c0 [|c1 [|c2 [|c3 rest]]]]; simpl in Hlen; try lia.
  simpl. f_equal.
  replace (Z.to_nat (Z.of_nat (length ws) - 1 + 1)) with (length ws) by lia.
  apply list_eq. intros i. rewrite list_lookup_fmap.
  destruct (ws !! i) as [w|] eqn:Hw; simpl.
  - rewrite lookup_take_lt by (by eapply lookup_lt_Some).
    destruct (Hrows i w Hw) as (H0 & H1 & H2 & H3).
    unfold cell in *. simpl in *.
    rewrite !lookup_zip_with, H0, H1, H2, H3. simpl.
    reflexivity.
  - apply lookup_take_ge. by apply lookup_ge_None.
Qed.

Section Chunks.
Context `{MeltEnv}.
Variable locale : Locale.

Lemma melt_loop_readings (P : Progress -> Prop) lines first_row show toks :
  forall t p s t' tk' s',
  melt_loop locale lines first_row show toks t p s = Ok (t', tk', s') ->
  (is_eof t = false -> P p) -> Forall (fun x => P x.2) toks ->
  (is_eof t' = false -> P (now tk')) /\
  Forall (fun x => P x.2) (stream tk').
Proof.
  induction toks as [|[t1 p1] rest IH]; intros t p s t' tk' s' Hl Hp Hall;
    simpl in Hl; destruct (is_eof t) eqn:Heof.
  1,3: injection Hl as <- <- <-; split; simpl; [intros; congruence|done].
  all: destruct (melt_body locale lines first_row show t p s) as [[s1|s1]|f];
    [| |discriminate].
  1,3: injection Hl as <- <- <-; split; simpl; auto.
  - injection Hl as <- <- <-. split; simpl; [done|constructor].
  - apply Forall_cons in Hall as [Hp1 Hall]. eapply IH; eauto.
Qed.

(** What holds of every reading carries over to the reader a call
    leaves. *)
Lemma melt_readings (P : Progress -> Prop) lines r ret r' :
  melt locale lines r = Ok (ret, r') -> readings P r -> readings P r'.
Proof.
  intros Hm Hp. destruct (is_eof (t_ r)) eqn:Heof.
  { rewrite melt_eof in Hm by done. by injection Hm as <- <-. }
  unfold melt in Hm. rewrite Heof in Hm. inv_bind Hm.
  destruct (melt_entry r Heof) as (t & tk & Hent & _ & Hb & Hnb).
  destruct (readings_entry P r t tk Hp Heof Hb Hnb) as [Hnow Hall].
  rewrite Hent in Hm. inv_bind Hm. destruct x0 as [[t' tk'] s].
  inv_bind Hm. injection Hm as <- <-.
  apply (melt_loop_readings P) in Hx0 as [Hnow' Hall']; [|done|done].
  split; simpl; auto.
Qed.

(** The progress contract carries over to the reader a call leaves. *)
Lemma melt_progress_ok lines r ret r' :
  melt locale lines r = Ok (ret, r') -> progress_ok r -> progress_ok r'.
Proof. apply (melt_readings fraction). Qed.

(** An unbounded melt writes every upcoming token. *)
Lemma melt_whole_written c r :
  readings (fun p => fraction p /\ fits c p) r ->
  Z.of_nat (length (upcoming r)) <= c ->
  (4 <= length (collectors_ r))%nat ->
  melt_whole written_rows locale r = Ok (melted locale <$> upcoming r).
Proof.
  intros Hp Hroom Hlen. unfold melt_whole.
  destruct (melt_ok locale (-1) c r Hp Hroom Hlen) as (ret & r' & Hm).
  rewrite Hm.
  destruct (is_eof (t_ r)) eqn:Heof.
  - rewrite melt_eof in Hm by done. injection Hm as <- <-.
    rewrite upcoming_eof by done.
    by apply (table_written locale (collectors_ r) []).
  - destruct (melt_spec locale (-1) r ret r' Hm Heof)
      as (ws & Hup & _ & Hstop & -> & Hrows & _ & Hlen' & _).
    destruct Hstop as [Hstop|Hstop]; [|done].
    rewrite (upcoming_eof r' Hstop), app_nil_r in Hup. rewrite Hup.
    apply table_written; [lia|done].
Qed.

(** A bounded melt with [1 <= k] on a reader with upcoming tokens writes
    at least one of them, provided the first token of the source is in one
    of the first [k] rows. *)
Lemma melt_chunk_advances k r r' ws :
  1 <= k ->
  (begun_ r = false ->
   forall w, head (upcoming r) = Some w -> Z.of_N (row w) < k) ->
  upcoming r = ws ++ upcoming r' -> upcoming r <> [] -> begun_ r' = true ->
  is_eof (t_ r') = true \/ at_boundary k (first_row_of r) (t_ r') = true ->
  ws <> [].
Proof.
  intros Hk Hfirst Hup Hne Hbegun Hstop ->. simpl in Hup.
  destruct Hstop as [Hstop|Hstop].
  { by rewrite (upcoming_eof r' Hstop) in Hup. }
  assert (Heof' : is_eof (t_ r') = false).
  { destruct (is_eof (t_ r')) eqn:E; [|done].
    by rewrite (upcoming_eof r' E) in Hup. }
  assert (Hhead : head (upcoming r) = Some (t_ r')).
  { by rewrite Hup, (upcoming_begun r' Hbegun Heof'). }
  unfold at_boundary in Hstop. apply andb_true_iff in Hstop as [_ Hstop].
  apply Z.leb_le in Hstop. unfold first_row_of in Hstop.
  destruct (begun_ r) eqn:Hb.
  - unfold upcoming in Hhead. rewrite Hb in Hhead.
    destruct (is_eof (t_ r)); [done|]. injection Hhead as Hhead.
    rewrite Hhead in Hstop. lia.
  - pose proof (Hfirst eq_refl _ Hhead). lia.
Qed.

(** Read up to the index [melt] answers, the chunks put end to end are
    the rows of the upcoming tokens, each once and in order. *)
Lemma melt_chunked_written c k fuel : forall r,
  1 <= k -> (length (upcoming r) < fuel)%nat ->
  (begun_ r = false ->
   forall w, head (upcoming r) = Some w -> Z.of_N (row w) < k) ->
  readings (fun p => fraction p /\ fits c p) r ->
  Z.of_nat (length (upcoming r)) <= c ->
  (4 <= length (collectors_ r))%nat ->
  melt_chunked written_rows fuel locale k r
    = Ok (melted locale <$> upcoming r).
Proof.
  induction fuel as [|fuel IH]; intros r Hk Hfuel Hfirst Hp Hroom Hlen; [lia|].
  simpl. destruct (melt_ok locale k c r Hp Hroom Hlen) as (ret & r' & Hm).
  rewrite Hm.
  pose proof (melt_readings _ k r ret r' Hm Hp) as Hp'.
  destruct (is_eof (t_ r)) eqn:Heof.
  { rewrite melt_eof in Hm by done. injection Hm as <- <-.
    by rewrite upcoming_eof. }
  destruct (melt_spec locale k r ret r' Hm Heof)
    as (ws & Hup & _ & Hstop & -> & Hrows & Hbegun & Hlen' & _).
  destruct (decide (upcoming r = [])) as [Hr|Hr].
  { rewrite Hr in Hup. destruct ws; [|discriminate]. simpl. by rewrite Hr. }
  assert (Hws : ws <> []) by (eapply (melt_chunk_advances k r); eauto).
  destruct (Z.eqb_spec (Z.of_nat (length ws) - 1) (-1)) as [E|_].
  { destruct ws; [done|simpl in E; lia]. }
  rewrite (table_written locale (collectors_ r') ws) by (lia || done).
  simpl.
  set (r'' := mkReader (tokenizer_ r') (collectorsClear (collectors_ r'))
                (progress_ r') (progressBar_ r') (begun_ r') (t_ r')).
  assert (Heq : upcoming r'' = upcoming r') by done.
  rewrite (IH r''); try done.
  - simpl. by rewrite Heq, Hup, fmap_app.
  - apply (f_equal length) in Hup. rewrite length_app in Hup.
    rewrite Heq. destruct ws; [done|]. simpl in *. lia.
  - simpl. by rewrite Hbegun.
  - apply (f_equal length) in Hup. rewrite length_app in Hup.
    rewrite Heq. lia.
  - simpl. unfold collectorsClear. rewrite length_fmap. lia.
Qed.

End Chunks.

(** What [meltToDataFrame] hands over is the whole of the four vectors,
    and it leaves the reader with cleared collectors, as [melt_chunked]
    passes it on. *)
Lemma meltToDataFrame_table `{MeltEnv} (locale : Locale) (lines : Z) r :
  meltToDataFrame locale lines r =
  match melt locale lines r with
  | Err f => Err f
  | Ok (ret, r') =>
      try out := whole_table ret (collectors_ r') in
      Ok (out, mkReader (tokenizer_ r') (collectorsClear (collectors_ r'))
                 (progress_ r') (progressBar_ r') (begun_ r') (t_ r'))
  end.
Proof. unfold meltToDataFrame. by destruct (melt locale lines r) as [[ret r']|f]. Qed.

Lemma readings_and (P Q : Progress -> Prop) r :
  readings P r -> readings Q r -> readings (fun p => P p /\ Q p) r.
Proof.
  intros [Hp Hps] [Hq Hqs]. split; [by auto|].
  apply Forall_forall. intros x Hx.
  rewrite Forall_forall in Hps. rewrite Forall_forall in Hqs. by auto.
Qed.

(** Read up to the index [melt] answers, chunked and whole reading
    agree. *)
Lemma melt_chunked_written_whole `{MeltEnv} (locale : Locale) k fuel r :
  1 <= k -> (length (upcoming r) < fuel)%nat ->
  (begun_ r = false ->
   forall w, head (upcoming r) = Some w -> Z.of_N (row w) < k) ->
  progress_ok r -> roomy r -> (4 <= length (collectors_ r))%nat ->
  melt_chunked written_rows fuel locale k r = melt_whole written_rows locale r.
Proof.
  intros Hk Hfuel Hfirst Hp Hroomy Hlen.
  pose proof (readings_and fraction _ r Hp Hroomy) as Hr.
  rewrite (melt_chunked_written locale _ k fuel r Hk Hfuel Hfirst Hr)
    by (lia || done).
  by rewrite (melt_whole_written locale _ r Hr) by (lia || done).
Qed.

(** * The claims of the specification *)

(** ** C1: chunked against whole reading *)

(** C1 does not hold of the code.  A source of 2 rows x 9 columns,
    melted in chunks of one line until the answer is [-1], gives 20 rows,
    each chunk ending in a row that was never written; a single unbounded
    melt gives the 18 rows of the source.  The chunks differ from the
    whole by those rows only: read up to the index [melt] answers, the two
    agree ([melt_chunked_written_whole]). *)
Theorem melt_chunked_differs :
  exists chunked whole,
    melt_chunked (H := example_env) whole_table 3 tt 1 (new_reader (grid 2 9))
      = Ok chunked /\
    melt_whole (H := example_env) whole_table tt (new_reader (grid 2 9))
      = Ok whole /\
    length chunked = 20%nat /\ length whole = 18%nat /\
    chunked !! 9%nat = Some (NA, NA, NA, NA) /\
    chunked <> whole.
Proof.
  eexists _, _. split; [vm_compute; reflexivity|].
  split; [vm_compute; reflexivity|].
  split_and!; try (vm_compute; reflexivity).
  intros E. apply (f_equal length) in E. vm_compute in E. discriminate.
Qed.

(** ** C2: the answer of [melt] *)

(** C2, as the code has it.  A call of [melt] that goes through answers
    the number of cells it wrote minus one, the index of the last row
    written; it answers [-1] exactly when it wrote no cell, and at least 0
    otherwise. *)
Theorem melt_return_value `{MeltEnv} (locale : Locale) (lines : Z) r ret r' :
  melt locale lines r = Ok (ret, r') ->
  exists ws,
    upcoming r = ws ++ upcoming r' /\
    (forall i w, ws !! i = Some w ->
       row_is (collectors_ r') i (melted locale w)) /\
    ret = Z.of_nat (length ws) - 1 /\
    (ret = -1 <-> ws = []) /\
    (ws <> [] -> 0 <= ret).
Proof.
  intros Hm. destruct (melt_written locale lines r ret r' Hm)
    as (ws & Hup & Hret & Hrows).
  exists ws. split_and!; try done.
  - intros i w Hw. by apply Hrows.
  - destruct ws; simpl in *; [done|]. split; [lia|done].
  - destruct ws; simpl in *; [done|lia].
Qed.

(** C2 fails as stated.  A source of one cell, melted unbounded: one cell
    is written and the answer is 0, not 1.  A source of 2 x 2 cells melted
    with [maxLines = 0]: the answer is [-1] although all four tokens are
    still to come. *)
Lemma melt_return_not_count :
  (exists r',
     melt (H := example_env) tt (-1) (new_reader (grid 1 1)) = Ok (0, r') /\
     upcoming (new_reader (grid 1 1)) = [grid_token 1 0] /\
     upcoming r' = [] /\
     table (collectors_ r') =
       Ok [melted (H := example_env) tt (grid_token 1 0)]) /\
  (exists r',
     melt (H := example_env) tt 0 (new_reader (grid 2 2)) = Ok (-1, r') /\
     length (upcoming r') = 4%nat).
Proof.
  split; eexists; (split; [vm_compute; reflexivity|]);
    split_and?; vm_compute; reflexivity.
Qed.

Lemma melt_return_value_witness :
  exists ret r',
    melt (H := example_env) tt 2 (new_reader (grid 3 2)) = Ok (ret, r') /\
    exists ws,
      upcoming (new_reader (grid 3 2)) = ws ++ upcoming r' /\
      (forall i w, ws !! i = Some w ->
         row_is (collectors_ r') i (melted (H := example_env) tt w)) /\
      ret = Z.of_nat (length ws) - 1 /\
      (ret = -1 <-> ws = []) /\
      (ws <> [] -> 0 <= ret).
Proof.
  eexists _, _. split; [vm_compute; reflexivity|].
  apply (melt_return_value (H := example_env) tt 2 (new_reader (grid 3 2))).
  vm_compute; reflexivity.
Defined.

(** ** C3: capacity after the final resize *)

(** C3 does not hold of the code.  A source of 2 rows x 9 columns melted
    with [maxLines = 1]: the call writes the 9 cells of the first row
    (it answers 8 and the 9 cells of the second row are still to come),
    [n] is 10, so [cells < n - 1] is false, no final resize happens and
    every collector is left with capacity 10. *)
Theorem melt_final_capacity_slack :
  exists r',
    melt (H := example_env) tt 1 (new_reader (grid 2 9)) = Ok (8, r') /\
    length (upcoming (new_reader (grid 2 9))) = 18%nat /\
    length (upcoming r') = 9%nat /\
    length <$> collectors_ r' = [10; 10; 10; 10]%nat /\
    cell (collectors_ r') 0 9 = Some NA.
Proof.
  eexists. split; [vm_compute; reflexivity|].
  split_and!; vm_compute; reflexivity.
Qed.

(** ** C4: the chunk boundary *)




(** ** C5: the [data_type] column *)

(** C5.  A call of [melt] writes the upcoming tokens [ws] up to the end
    of the input or the chunk boundary, and every one of them gets its
    [data_type] from its tag: "missing" for a MISSING token, "empty" for
    an EMPTY token, and for a STRING token the answer of the type guess on
    its text under the locale.  That answer is neither marker when the
    type guess is one that answers types only.  No written token is
    END. *)
Theorem melt_data_type `{MeltEnv} (locale : Locale) (lines : Z) r ret r' :
  melt locale lines r = Ok (ret, r') ->
  exists ws,
    upcoming r = ws ++ upcoming r' /\
    ret = Z.of_nat (length ws) - 1 /\
    (forall w', head (upcoming r') = Some w' ->
       0 <= lines /\ first_row_of r + lines <= Z.of_N (row w')) /\
    forall i w, ws !! i = Some w ->
      exists dt,
        cell (collectors_ r') 2 i = Some (VStr dt) /\
        cell (collectors_ r') 3 i = Some (VTok w) /\
        type w <> TOKEN_EOF /\
        (type w = TOKEN_MISSING -> dt = "missing") /\
        (type w = TOKEN_EMPTY -> dt = "empty") /\
        (type w = TOKEN_STRING ->
           dt = collectorGuess (asString w) locale true /\
           (guess_is_type -> dt <> "missing" /\ dt <> "empty")).
Proof.
  intros Hm. destruct (melt_written_chunk locale lines r ret r' Hm)
    as (ws & Hup & Hret & Hend & Hrows).
  exists ws. split_and!; try done. intros i w Hw.
  destruct (Hrows i w Hw) as (Heof & _ & _ & H2 & H3).
  eexists. split; [exact H2|]. split; [exact H3|].
  unfold is_eof in Heof. simpl.
  destruct (type w); split_and!; try done.
Qed.

Lemma melt_data_type_witness :
  guess_is_type (H := example_env) /\
  exists r',
    melt (H := example_env) tt (-1) (new_reader mixed_line) = Ok (2, r') /\
    upcoming r' = [] /\
    cell (collectors_ r') 2 <$> [0; 1; 2]%nat
      = [Some (VStr "character"); Some (VStr "missing"); Some (VStr "empty")] /\
    exists ws,
      upcoming (new_reader mixed_line) = ws ++ upcoming r' /\
      2 = Z.of_nat (length ws) - 1 /\
      (forall w', head (upcoming r') = Some w' ->
         0 <= -1 /\
         first_row_of (new_reader mixed_line) + -1 <= Z.of_N (row w')) /\
      forall i w, ws !! i = Some w ->
        exists dt,
          cell (collectors_ r') 2 i = Some (VStr dt) /\
          cell (collectors_ r') 3 i = Some (VTok w) /\
          type w <> TOKEN_EOF /\
          (type w = TOKEN_MISSING -> dt = "missing") /\
          (type w = TOKEN_EMPTY -> dt = "empty") /\
          (type w = TOKEN_STRING ->
             dt = collectorGuess (MeltEnv := example_env) (asString w) tt true /\
             (guess_is_type (H := example_env) ->
              dt <> "missing" /\ dt <> "empty")).
Proof.
  split; [intros s l b; split; discriminate|].
  eexists. split; [vm_compute; reflexivity|].
  split; [vm_compute; reflexivity|]. split; [vm_compute; reflexivity|].
  apply (melt_data_type (H := example_env) tt (-1) (new_reader mixed_line)).
  vm_compute; reflexivity.
Defined.

(** ** C6: the [row] and [col] columns *)

(** The rows a call of [melt] writes, the rows [0 .. ret] of the
    collectors, carry the one-based coordinates of their tokens: the row
    cell is the token's zero-based row plus 1, the column cell its
    zero-based column plus 1, and both are at least 1. *)
Lemma melt_written_row_col `{MeltEnv} (locale : Locale) (lines : Z) r ret r' :
  melt locale lines r = Ok (ret, r') ->
  exists ws,
    upcoming r = ws ++ upcoming r' /\
    ret = Z.of_nat (length ws) - 1 /\
    (forall w', head (upcoming r') = Some w' ->
       0 <= lines /\ first_row_of r + lines <= Z.of_N (row w')) /\
    forall i w, ws !! i = Some w ->
      exists x y,
        cell (collectors_ r') 0 i = Some (VInt x) /\
        cell (collectors_ r') 1 i = Some (VInt y) /\
        cell (collectors_ r') 3 i = Some (VTok w) /\
        x = Z.of_N (row w) + 1 /\ y = Z.of_N (col w) + 1 /\
        1 <= x /\ 1 <= y.
Proof.
  intros Hm. destruct (melt_written_chunk locale lines r ret r' Hm)
    as (ws & Hup & Hret & Hend & Hrows).
  exists ws. split_and!; try done. intros i w Hw.
  destruct (Hrows i w Hw) as (_ & H0 & H1 & _ & H3).
  exists (Z.of_N (row w) + 1), (Z.of_N (col w) + 1).
  split_and!; try done; lia.
Qed.

(** C6 does not hold of the code.  The output rows of a call are the
    rows of the four vectors [meltToDataFrame] hands over (lines 64-67).
    On a source of 2 rows x 9 columns read with [maxLines = 1] that table
    has ten rows: the first nine are the nine cells of the first source
    row, with row 1 and columns 1 to 9, and the tenth belongs to no token
    and has no row or column value at all.  It is the slot the final
    resize of line 156 leaves over (see C3). *)
Theorem melt_row_col_slack :
  exists out r',
    meltToDataFrame (H := example_env) tt 1 (new_reader (grid 2 9))
      = Ok (out, r') /\
    length out = 10%nat /\
    (forall i, (i < 9)%nat ->
       out !! i = Some (VInt 1, VInt (Z.of_nat i + 1), VStr "character",
                        VTok (grid_token 9 i))) /\
    out !! 9%nat = Some (NA, NA, NA, NA) /\
    length (upcoming r') = 9%nat.
Proof.
  eexists _, _. split; [vm_compute; reflexivity|].
  split_and!; try (vm_compute; reflexivity).
  intros i Hi.
  do 9 (destruct i as [|i]; [vm_compute; reflexivity|]). lia.
Qed.

(** ** C7: growth *)




(** ** C8: writes within capacity *)

Ltac fractions :=
  repeat (constructor; [vm_compute; split; [reflexivity|discriminate]|]);
  try constructor.


Ltac rooms :=
  repeat (constructor; [vm_compute; reflexivity|]);
  try constructor.



(** ** C9: the end-of-input signal *)

(** C9, as the code has it.  On a reader whose pending token is END,
    [melt] answers [-1] and leaves the reader, collectors included, as it
    was.  A call that runs answers [-1] as well when it writes no row, and
    at least 0 when it writes one: the signal differs from the answers of
    the calls that wrote something, and from those only. *)
Theorem melt_end_signal `{MeltEnv} (locale : Locale) (lines : Z) r :
  (is_eof (t_ r) = true -> melt locale lines r = Ok (-1, r)) /\
  (forall ret r',
     is_eof (t_ r) = false -> melt locale lines r = Ok (ret, r') ->
     exists ws,
       upcoming r = ws ++ upcoming r' /\
       (forall i w, ws !! i = Some w ->
          row_is (collectors_ r') i (melted locale w)) /\
       (ws = [] -> ret = -1 /\ capacity 0 (collectors_ r')) /\
       (ws <> [] -> 0 <= ret)).
Proof.
  split; [apply melt_eof|]. intros ret r' Heof Hm.
  destruct (melt_spec locale lines r ret r' Hm Heof)
    as (ws & Hup & _ & _ & Hret & Hrows & _ & _ & m & Hcap & _ & Hm0).
  exists ws. split_and!; try done.
  - intros ->. rewrite <- (Hm0 eq_refl). split; [simpl in Hret; lia|done].
  - destruct ws; simpl in *; [done|lia].
Qed.

(** C9 fails as stated.  A call with [maxLines = 0] on a fresh reader
    over one cell runs (the first token is fetched, the collectors are
    resized), completes with no row, and answers [-1], the very answer an
    exhausted reader gets. *)
Lemma melt_signal_not_distinct :
  exists r',
    melt (H := example_env) tt 0 (new_reader (grid 1 1)) = Ok (-1, r') /\
    is_eof (t_ (new_reader (grid 1 1))) = false /\
    begun_ r' = true /\ t_ r' = grid_token 1 0 /\
    table (collectors_ r') = Ok [] /\
    melt (H := example_env) tt 0
      (mkReader (mkTokenizer [] (1%Q, 1%N)) [[]; []; []; []] false [] true
         eof_token)
    = Ok (-1, mkReader (mkTokenizer [] (1%Q, 1%N)) [[]; []; []; []] false []
                true eof_token).
Proof.
  eexists; (split; [vm_compute; reflexivity|]);
    split_and?; vm_compute; reflexivity.
Qed.

Lemma melt_end_signal_witness :
  is_eof (t_ exhausted_reader) = true /\
  melt (H := example_env) tt 2 exhausted_reader = Ok (-1, exhausted_reader) /\
  exists ret r',
    is_eof (t_ (new_reader (grid 3 2))) = false /\
    melt (H := example_env) tt 0 (new_reader (grid 3 2)) = Ok (ret, r') /\
    exists ws,
      upcoming (new_reader (grid 3 2)) = ws ++ upcoming r' /\
      (forall i w, ws !! i = Some w ->
         row_is (collectors_ r') i (melted (H := example_env) tt w)) /\
      (ws = [] -> ret = -1 /\ capacity 0 (collectors_ r')) /\
      (ws <> [] -> 0 <= ret).
Proof.
  split; [reflexivity|]. split.
  - apply (proj1 (melt_end_signal (H := example_env) tt 2 exhausted_reader)).
    reflexivity.
  - eexists _, _. split; [reflexivity|]. split; [vm_compute; reflexivity|].
    apply (proj2 (melt_end_signal (H := example_env) tt 0
                    (new_reader (grid 3 2)))).
    + reflexivity.
    + vm_compute; reflexivity.
Defined.

(** * Further properties of the code *)

(** ** The capacity estimate *)

(** X1.  Line 117 extrapolates with a margin of 10 per cent.  For a
    positive progress fraction [p]: as long as [cells / p] times
    1.1000000000000006 is below [2^63], the new capacity [n'] is
    [cells / p] times 1.1 to within the rounding of three double
    operations and the truncation, that is
    [cells / p * 1.0999999999999996 < n' + 1] and
    [n' <= cells / p * 1.1000000000000006]; and once [cells / p] times
    1.0999999999999996 reaches [2^63] the conversion to [R_xlen_t] answers
    the least [R_xlen_t], a negative capacity. *)
Theorem estimate_bounds (cells : Z) (p : Q) :
  (0 < p)%Q -> 0 <= cells ->
  ((inject_Z cells * estimate_high < inject_Z (2 ^ 63) * p)%Q ->
   exists n',
     estimate cells p = Some n' /\ 0 <= n' <= xlen_max /\
     (inject_Z cells * estimate_low < (inject_Z n' + 1) * p)%Q /\
     (inject_Z n' * p <= inject_Z cells * estimate_high)%Q) /\
  ((inject_Z (2 ^ 63) * p <= inject_Z cells * estimate_low)%Q ->
   estimate cells p = Some xlen_min /\ xlen_min < 0).
Proof.
  intros Hp Hc. split.
  - intros Hfit.
    destruct (estimate_fits cells (p, 0%N) Hp Hc Hfit) as [He Hr].
    destruct (estimate_double_bounds cells p Hp Hc) as (_ & Hlow & Hup).
    simpl in He, Hr. eauto.
  - intros Hbig. split; [by apply estimate_overflow|done].
Qed.

Lemma estimate_bounds_witness :
  (exists n',
     estimate 1000 (1 # 4) = Some n' /\ 0 <= n' <= xlen_max /\
     (inject_Z 1000 * estimate_low < (inject_Z n' + 1) * (1 # 4))%Q /\
     (inject_Z n' * (1 # 4) <= inject_Z 1000 * estimate_high)%Q) /\
  estimate 10 (1 # 2 ^ 60) = Some xlen_min /\ xlen_min < 0.
Proof.
  split.
  - apply (proj1 (estimate_bounds 1000 (1 # 4) eq_refl ltac:(lia))).
    vm_compute; reflexivity.
  - apply (proj2 (estimate_bounds 10 (1 # 2 ^ 60) eq_refl ltac:(lia))).
    vm_compute; discriminate.
Defined.

(** ** What a chunk holds *)

(** X2.  A bounded melt ([0 <= lines]) writes the upcoming tokens up to
    the first whose row is [lines] or more past the baseline: every token
    written has its row below [first_row + lines], and the token left
    pending, if there is one, has its row at or above it.  So no chunk
    ends inside a row of the source: the pending token's row is larger
    than that of every token written. *)
Theorem melt_chunk_rows `{MeltEnv} (locale : Locale) (lines : Z) r ret r' :
  0 <= lines -> is_eof (t_ r) = false ->
  melt locale lines r = Ok (ret, r') ->
  exists ws,
    upcoming r = ws ++ upcoming r' /\
    ret = Z.of_nat (length ws) - 1 /\
    (forall i w, ws !! i = Some w ->
       Z.of_N (row w) < first_row_of r + lines) /\
    (forall w', head (upcoming r') = Some w' ->
       first_row_of r + lines <= Z.of_N (row w') /\
       forall i w, ws !! i = Some w -> (row w < row w')%N).
Proof.
  intros Hlines Heof Hm.
  destruct (melt_spec locale lines r ret r' Hm Heof)
    as (ws & Hup & Hall & Hstop & Hret & _ & Hbegun & _).
  assert (Hin : forall i w, ws !! i = Some w ->
                  Z.of_N (row w) < first_row_of r + lines).
  { intros i w Hw. pose proof (Forall_lookup_1 _ _ _ _ Hall Hw) as Hb.
    unfold at_boundary in Hb. apply andb_false_iff in Hb as [Hb|Hb]; lia. }
  exists ws. split_and!; try done.
  intros w' Hw'. pose proof (upcoming_head_begun r' w' Hbegun Hw') as ->.
  assert (Hpend : first_row_of r + lines <= Z.of_N (row (t_ r'))).
  { destruct Hstop as [Hstop|Hstop].
    - by rewrite (upcoming_eof r' Hstop) in Hw'.
    - unfold at_boundary in Hstop. apply andb_true_iff in Hstop as [_ Hstop].
      lia. }
  split; [done|]. intros i w Hw. specialize (Hin i w Hw). lia.
Qed.

Lemma melt_chunk_rows_witness :
  exists ret r',
    melt (H := example_env) tt 2 (new_reader (grid 3 2)) = Ok (ret, r') /\
    exists ws,
      upcoming (new_reader (grid 3 2)) = ws ++ upcoming r' /\
      ret = Z.of_nat (length ws) - 1 /\
      (forall i w, ws !! i = Some w ->
         Z.of_N (row w) < first_row_of (new_reader (grid 3 2)) + 2) /\
      (forall w', head (upcoming r') = Some w' ->
         first_row_of (new_reader (grid 3 2)) + 2 <= Z.of_N (row w') /\
         forall i w, ws !! i = Some w -> (row w < row w')%N).
Proof.
  eexists _, _. split; [vm_compute; reflexivity|].
  apply (melt_chunk_rows (H := example_env) tt 2 (new_reader (grid 3 2)));
    [lia|reflexivity|vm_compute; reflexivity].
Defined.

(** X3.  An unbounded melt ([lines < 0]) writes every upcoming token:
    its answer is their number minus one, row [i] of the collectors is
    the row of the [i]-th of them, and it leaves the reader exhausted, so
    that every later call answers [-1] and changes nothing. *)
Theorem melt_unbounded_all `{MeltEnv} (locale : Locale) (lines : Z) r ret r' :
  lines < 0 -> is_eof (t_ r) = false ->
  melt locale lines r = Ok (ret, r') ->
  ret = Z.of_nat (length (upcoming r)) - 1 /\
  (forall i w, upcoming r !! i = Some w ->
     row_is (collectors_ r') i (melted locale w)) /\
  upcoming r' = [] /\ is_eof (t_ r') = true /\
  forall lines', melt locale lines' r' = Ok (-1, r').
Proof.
  intros Hlines Heof Hm.
  destruct (melt_spec locale lines r ret r' Hm Heof)
    as (ws & Hup & _ & Hstop & Hret & Hrows & _).
  assert (Heof' : is_eof (t_ r') = true).
  { destruct Hstop as [Hstop|Hstop]; [done|].
    unfold at_boundary in Hstop. apply andb_true_iff in Hstop as [Hstop _].
    lia. }
  rewrite (upcoming_eof r' Heof'), app_nil_r in Hup. subst ws.
  split_and!; try done; [by apply upcoming_eof|intros; by apply melt_eof].
Qed.

Lemma melt_unbounded_all_witness :
  exists ret r',
    melt (H := example_env) tt (-1) (new_reader (grid 3 2)) = Ok (ret, r') /\
    ret = Z.of_nat (length (upcoming (new_reader (grid 3 2)))) - 1 /\
    (forall i w, upcoming (new_reader (grid 3 2)) !! i = Some w ->
       row_is (collectors_ r') i (melted (H := example_env) tt w)) /\
    upcoming r' = [] /\ is_eof (t_ r') = true /\
    forall lines', melt (H := example_env) tt lines' r' = Ok (-1, r').
Proof.
  eexists _, _. split; [vm_compute; reflexivity|].
  apply (melt_unbounded_all (H := example_env) tt (-1) (new_reader (grid 3 2)));
    [lia|reflexivity|vm_compute; reflexivity].
Defined.

(** X4.  Empty input: the first call on a source without tokens fetches
    the END sentinel, writes nothing and answers [-1], whatever
    [maxLines]; it leaves every collector with capacity 0 and the reader
    begun and exhausted. *)
Theorem melt_empty_source `{MeltEnv} (locale : Locale) (lines : Z) r :
  begun_ r = false -> is_eof (t_ r) = false -> stream (tokenizer_ r) = [] ->
  exists r',
    melt locale lines r = Ok (-1, r') /\
    is_eof (t_ r') = true /\ begun_ r' = true /\
    tokenizer_ r' = tokenizer_ r /\
    capacity 0 (collectors_ r') /\
    length (collectors_ r') = length (collectors_ r).
Proof.
  intros Hb Heof Hs. unfold melt. rewrite Heof, Hb.
  set (n := if lines <? 0 then 10000 else lines * 10).
  assert (Hn : 0 <= n) by (unfold n; destruct (lines <? 0) eqn:E; lia).
  rewrite collectorsResize_nonneg by done. simpl.
  unfold nextToken. rewrite Hs. simpl.
  destruct (tokenizer_ r) as [toks p] eqn:Htk. simpl in Hs. subst toks.
  simpl. unfold finalize. simpl.
  eexists. split; [reflexivity|]. simpl.
  split_and!; try done; [apply resize_capacity|by rewrite !length_fmap].
Qed.

Lemma melt_empty_source_witness :
  exists r',
    melt (H := example_env) tt 5 (new_reader []) = Ok (-1, r') /\
    is_eof (t_ r') = true /\ begun_ r' = true /\
    tokenizer_ r' = tokenizer_ (new_reader []) /\
    capacity 0 (collectors_ r') /\
    length (collectors_ r') = length (collectors_ (new_reader [])).
Proof.
  apply (melt_empty_source (H := example_env) tt 5 (new_reader []));
    reflexivity.
Defined.

(** X5.  The collectors move in step.  After a call of [melt] that runs,
    all collectors, however many and also those [melt] never writes to,
    have one capacity; it is at least the number of cells written, so no
    written row is cut off, at most one more, and 0 when nothing was
    written.  Their number is as before. *)
Theorem melt_capacity_lockstep `{MeltEnv} (locale : Locale) (lines : Z)
    r ret r' :
  is_eof (t_ r) = false -> melt locale lines r = Ok (ret, r') ->
  length (collectors_ r') = length (collectors_ r) /\
  exists m,
    capacity m (collectors_ r') /\
    ret + 1 <= Z.of_nat m <= ret + 2 /\ (ret = -1 -> m = 0%nat).
Proof.
  intros Heof Hm.
  destruct (melt_spec locale lines r ret r' Hm Heof)
    as (ws & _ & _ & _ & -> & _ & _ & Hlen & m & Hcap & Hm1 & Hm0).
  split; [done|]. exists m. split_and!; [done|lia|lia|].
  intros Hret. apply Hm0. destruct ws; [done|simpl in Hret; lia].
Qed.

Lemma melt_capacity_lockstep_witness :
  exists ret r',
    melt (H := example_env) tt 1 (new_reader (grid 2 9)) = Ok (ret, r') /\
    length (collectors_ r') = length (collectors_ (new_reader (grid 2 9))) /\
    exists m,
      capacity m (collectors_ r') /\
      ret + 1 <= Z.of_nat m <= ret + 2 /\ (ret = -1 -> m = 0%nat).
Proof.
  eexists _, _. split; [vm_compute; reflexivity|].
  apply (melt_capacity_lockstep (H := example_env) tt 1
           (new_reader (grid 2 9)));
    [reflexivity|vm_compute; reflexivity].
Defined.

(** X6.  Resumption.  With [1 <= k], at least four collectors and
    progress fractions in (0, 1] that are large enough for every capacity
    estimate to stay below [2^63] ([roomy]), calling [melt] with
    [maxLines = k] until it answers [-1] and reading after each call the
    rows up to the index answered gives the rows of all upcoming tokens,
    each once and in order: the same as one unbounded melt read the same
    way.  The first token of the source has to lie in one of the first [k]
    rows. *)
Theorem melt_chunks_resume `{MeltEnv} (locale : Locale) (k : Z) (fuel : nat) r :
  1 <= k -> (length (upcoming r) < fuel)%nat ->
  (begun_ r = false ->
   forall w, head (upcoming r) = Some w -> Z.of_N (row w) < k) ->
  progress_ok r -> roomy r -> (4 <= length (collectors_ r))%nat ->
  melt_chunked written_rows fuel locale k r
    = Ok (melted locale <$> upcoming r) /\
  melt_whole written_rows locale r = Ok (melted locale <$> upcoming r).
Proof.
  intros Hk Hfuel Hfirst Hp Hroomy Hlen.
  pose proof (readings_and fraction _ r Hp Hroomy) as Hr. split.
  - by apply (melt_chunked_written locale _ k fuel r Hk Hfuel Hfirst Hr);
      [lia|].
  - by apply (melt_whole_written locale _ r Hr); [lia|].
Qed.

Lemma melt_chunks_resume_witness :
  progress_ok (new_reader (grid 2 12)) /\ roomy (new_reader (grid 2 12)) /\
  length (upcoming (new_reader (grid 2 12))) = 24%nat /\
  melt_chunked (H := example_env) written_rows 25 tt 1 (new_reader (grid 2 12))
    = Ok (melted (H := example_env) tt <$> upcoming (new_reader (grid 2 12))) /\
  melt_whole (H := example_env) written_rows tt (new_reader (grid 2 12))
    = Ok (melted (H := example_env) tt <$> upcoming (new_reader (grid 2 12))).
Proof.
  assert (Hp : progress_ok (new_reader (grid 2 12))).
  { split; [intros [=]|]. simpl. fractions. }
  assert (Hr : roomy (new_reader (grid 2 12))).
  { split; [intros [=]|]. simpl. rooms. }
  split; [exact Hp|]. split; [exact Hr|]. split; [reflexivity|].
  apply (melt_chunks_resume (H := example_env) tt 1 25
           (new_reader (grid 2 12))).
  - lia.
  - vm_compute. lia.
  - intros _ w [= <-]. vm_compute. reflexivity.
  - exact Hp.
  - exact Hr.
  - simpl. lia.
Defined.

(** ** The progress bar *)

Lemma div_step c step :
  0 <= c -> 0 < step ->
  (c + 1) / step = c / step + (if Z.rem (c + 1) step =? 0 then 1 else 0).
Proof.
  intros Hc Hs. rewrite Z.rem_mod_nonneg by lia.
  pose proof (Z.div_mod c step ltac:(lia)) as H1.
  pose proof (Z.mod_pos_bound c step Hs) as H2.
  pose proof (Z.div_mod (c + 1) step ltac:(lia)) as H3.
  pose proof (Z.mod_pos_bound (c + 1) step Hs) as H4.
  destruct ((c + 1) mod step =? 0) eqn:E; [apply Z.eqb_eq in E|apply Z.eqb_neq in E];
    nia.
Qed.

Section Bar.
Context `{MeltEnv}.
Variables (locale : Locale) (lines first_row : Z) (show : bool).

Lemma melt_body_bar t p s st :
  melt_body locale lines first_row show t p s = Ok st ->
  ls_bar (match st with Break s' => s' | Next s' => s' end) =
  if show && (Z.rem (ls_cells s + 1) progressStep_ =? 0)
  then ShowBar p :: ls_bar s else ls_bar s.
Proof.
  unfold melt_body. destruct (at_boundary lines first_row t).
  - by intros [= <-].
  - intros Hb. inv_bind Hb. destruct x as [n cs]. do 4 inv_bind Hb.
    by injection Hb as <-.
Qed.

Lemma melt_body_shows t p s st :
  melt_body locale lines first_row show t p s = Ok st ->
  0 <= ls_cells s -> 0 < progressStep_ ->
  shows (ls_bar (match st with Break s' => s' | Next s' => s' end)) =
  shows (ls_bar s) +
  (if show then (ls_cells s + 1) / progressStep_ - ls_cells s / progressStep_
   else 0).
Proof.
  intros Hb Hc Hs. rewrite (melt_body_bar _ _ _ _ Hb).
  rewrite (div_step (ls_cells s) progressStep_) by done.
  destruct show; simpl; [|lia].
  destruct (Z.rem (ls_cells s + 1) progressStep_ =? 0); simpl; lia.
Qed.

Lemma melt_loop_bar_off toks : forall t p s t' tk' s',
  show = false ->
  melt_loop locale lines first_row show toks t p s = Ok (t', tk', s') ->
  ls_bar s' = ls_bar s.
Proof.
  induction toks as [|[t1 p1] rest IH]; intros t p s t' tk' s' Hshow Hl;
    simpl in Hl; destruct (is_eof t).
  1,3: by injection Hl as <- <- <-.
  all: destruct (melt_body locale lines first_row show t p s) as [st|f] eqn:Hb;
    [|discriminate];
    pose proof (melt_body_bar _ _ _ _ Hb) as Hbar; rewrite Hshow in Hbar;
    simpl in Hbar; destruct st as [s1|s1].
  1,2,3: by injection Hl as <- <- <-.
  apply IH in Hl; [|done]. congruence.
Qed.

Lemma melt_loop_shows toks : forall t p s t' tk' s',
  melt_loop locale lines first_row show toks t p s = Ok (t', tk', s') ->
  0 <= ls_cells s -> 0 < progressStep_ ->
  shows (ls_bar s') =
  shows (ls_bar s) +
  (if show
   then (ls_cells s' + (if is_eof t' then 0 else 1)) / progressStep_
        - ls_cells s / progressStep_
   else 0).
Proof.
  induction toks as [|[t1 p1] rest IH]; intros t p s t' tk' s' Hl Hc Hs;
    simpl in Hl; destruct (is_eof t) eqn:Heof.
  1,3: injection Hl as <- <- <-; rewrite Heof, Z.add_0_r;
       destruct show; lia.
  all: destruct (melt_body locale lines first_row show t p s) as [st|f] eqn:Hb;
    [|discriminate];
    pose proof (melt_body_shows _ _ _ _ Hb Hc Hs) as Hsh;
    destruct st as [s1|s1].
  1,3: injection Hl as <- <- <-;
       apply melt_body_Break in Hb as (_ & Hcells & _);
       rewrite Heof, Hcells; exact Hsh.
  - injection Hl as <- <- <-.
    apply melt_body_Next in Hb as (_ & _ & Hcells & _); [|done].
    simpl. rewrite Z.add_0_r, Hcells. exact Hsh.
  - apply melt_body_Next in Hb as (_ & _ & Hcells & _); [|done].
    apply IH in Hl; [|lia|done]. rewrite Hl. simpl in Hsh. rewrite Hsh, Hcells.
    destruct show; lia.
Qed.

End Bar.

(** The locals at the end of the loop of a call that runs. *)
Lemma melt_Ok `{MeltEnv} (locale : Locale) (lines : Z) r ret r' :
  melt locale lines r = Ok (ret, r') -> is_eof (t_ r) = false ->
  exists cs t tk s,
    melt_loop locale lines (first_row_of r) (progress_ r) (stream tk) t
      (now tk)
      (mkLoop 0 (if lines <? 0 then 10000 else lines * 10) (-1) cs
         (progressBar_ r))
      = Ok (t_ r', tokenizer_ r', s) /\
    ret = ls_cells s - 1 /\ progress_ r' = progress_ r /\
    progressBar_ r' =
      StopBar :: (if progress_ r then ShowBar (progress (tokenizer_ r')) :: ls_bar s
                  else ls_bar s).
Proof.
  intros Hm Heof. unfold melt in Hm. rewrite Heof in Hm.
  inv_bind Hm.
  destruct (melt_entry r Heof) as (t & tk & Hent & _).
  rewrite Hent in Hm. inv_bind Hm. destruct x0 as [[t' tk'] s].
  inv_bind Hm. injection Hm as <- <-. simpl.
  exists x, t, tk, s. done.
Qed.

(** X7.  Without progress reporting ([progress_] false) a call of
    [melt] that runs tells the progress bar one thing only: to stop. *)
Theorem melt_bar_silent `{MeltEnv} (locale : Locale) (lines : Z) r ret r' :
  progress_ r = false -> is_eof (t_ r) = false ->
  melt locale lines r = Ok (ret, r') ->
  progressBar_ r' = StopBar :: progressBar_ r /\ progress_ r' = false.
Proof.
  intros Hp Heof Hm.
  destruct (melt_Ok locale lines r ret r' Hm Heof)
    as (cs & t & tk & s & Hl & _ & Hp' & Hbar).
  rewrite Hp in *. apply melt_loop_bar_off in Hl; [|done].
  rewrite Hbar, Hl. done.
Qed.

Lemma melt_bar_silent_witness :
  exists ret r',
    melt (H := example_env) tt 2 (new_reader (grid 3 2)) = Ok (ret, r') /\
    progressBar_ r' = StopBar :: progressBar_ (new_reader (grid 3 2)) /\
    progress_ r' = false.
Proof.
  destruct (melt (H := example_env) tt 2 (new_reader (grid 3 2)))
    as [[ret r']|f] eqn:Hm; [|vm_compute in Hm; discriminate].
  exists ret, r'. split; [reflexivity|].
  exact (melt_bar_silent (H := example_env) tt 2 (new_reader (grid 3 2))
           ret r' eq_refl eq_refl Hm).
Defined.

(** X8.  With progress reporting, and a positive [progressStep_], a call
    of [melt] that runs shows the progress bar once for every
    [progressStep_] passes through the loop body and once more at the end,
    then stops it.  The passes are the cells written, plus one when the
    loop ended at the chunk boundary. *)
Theorem melt_bar_count `{MeltEnv} (locale : Locale) (lines : Z) r ret r' :
  0 < progressStep_ -> progress_ r = true -> is_eof (t_ r) = false ->
  melt locale lines r = Ok (ret, r') ->
  shows (progressBar_ r') =
    shows (progressBar_ r)
    + (ret + (if is_eof (t_ r') then 1 else 2)) / progressStep_ + 1 /\
  exists rest,
    progressBar_ r' = StopBar :: ShowBar (progress (tokenizer_ r')) :: rest.
Proof.
  intros Hs Hp Heof Hm.
  destruct (melt_Ok locale lines r ret r' Hm Heof)
    as (cs & t & tk & s & Hl & -> & _ & Hbar).
  rewrite Hp in *. apply melt_loop_shows in Hl; [|simpl; lia|done].
  simpl in Hl. rewrite Hbar. simpl. split; [|eauto].
  rewrite Hl, Z.div_0_l by lia.
  replace (ls_cells s - 1 + (if is_eof (t_ r') then 1 else 2))
    with (ls_cells s + (if is_eof (t_ r') then 0 else 1))
    by (destruct (is_eof (t_ r')); lia).
  lia.
Qed.

Lemma melt_bar_count_witness :
  exists ret r',
    melt (H := step2_env) tt 2 (reporting_reader (grid 3 2)) = Ok (ret, r') /\
    shows (progressBar_ r') =
      shows (progressBar_ (reporting_reader (grid 3 2)))
      + (ret + (if is_eof (t_ r') then 1 else 2)) / 2 + 1 /\
    exists rest,
      progressBar_ r' = StopBar :: ShowBar (progress (tokenizer_ r')) :: rest.
Proof.
  eexists _, _. split; [vm_compute; reflexivity|].
  apply (melt_bar_count (H := step2_env) tt 2 (reporting_reader (grid 3 2)));
    [reflexivity|reflexivity|reflexivity|vm_compute; reflexivity].
Defined.

(** ** [meltToDataFrame] *)

Lemma table_length cs out m :
  table cs = Ok out -> capacity m cs -> length out = m.
Proof.
  unfold table. intros Ht Hcap.
  destruct (cs !! 0%nat) as [c0|] eqn:H0; [|done].
  destruct (cs !! 1%nat) as [c1|] eqn:H1; [|done].
  destruct (cs !! 2%nat) as [c2|] eqn:H2; [|done].
  destruct (cs !! 3%nat) as [c3|] eqn:H3; [|done].
  injection Ht as <-.
  rewrite !length_zip_with.
  rewrite (capacity_lookup _ _ _ _ Hcap H0), (capacity_lookup _ _ _ _ Hcap H1),
    (capacity_lookup _ _ _ _ Hcap H2), (capacity_lookup _ _ _ _ Hcap H3).
  lia.
Qed.

Lemma table_four cs out : table cs = Ok out -> (4 <= length cs)%nat.
Proof.
  unfold table. intros Ht.
  destruct (cs !! 3%nat) as [c3|] eqn:H3.
  - apply lookup_lt_Some in H3. lia.
  - by destruct (cs !! 0%nat), (cs !! 1%nat), (cs !! 2%nat).
Qed.

Lemma table_clear cs :
  (4 <= length cs)%nat -> table (collectorsClear cs) = Ok [].
Proof.
  intros Hlen. destruct cs as [|c0 [|c1 [|c2 [|c3 rest]]]]; simpl in Hlen;
    try lia. done.
Qed.

Lemma collectorsClear_idemp cs :
  collectorsClear (collectorsClear cs) = collectorsClear cs.
Proof. unfold collectorsClear. by rewrite <- list_fmap_compose. Qed.

Lemma meltToDataFrame_Ok `{MeltEnv} (locale : Locale) (lines : Z) r out r' :
  meltToDataFrame locale lines r = Ok (out, r') ->
  exists ret r1,
    melt locale lines r = Ok (ret, r1) /\ table (collectors_ r1) = Ok out /\
    r' = mkReader (tokenizer_ r1) (collectorsClear (collectors_ r1))
           (progress_ r1) (progressBar_ r1) (begun_ r1) (t_ r1).
Proof.
  unfold meltToDataFrame.
  destruct (melt locale lines r) as [[ret r1]|f]; [|done].
  intros Hd. inv_bind Hd. injection Hd as <- <-. eauto.
Qed.

(** A melt with [maxLines = 0] writes nothing. *)
Lemma melt_zero_lines `{MeltEnv} (locale : Locale) r ret r' :
  is_eof (t_ r) = false -> melt locale 0 r = Ok (ret, r') ->
  ret = -1 /\ upcoming r' = upcoming r /\ capacity 0 (collectors_ r').
Proof.
  intros Heof Hm.
  destruct (melt_spec locale 0 r ret r' Hm Heof)
    as (ws & Hup & Hall & _ & Hret & _ & _ & _ & m & Hcap & _ & Hm0).
  destruct ws as [|w ws'].
  - rewrite <- (Hm0 eq_refl). done.
  - exfalso. apply Forall_cons in Hall as [Hw _].
    unfold at_boundary in Hw. simpl in Hw. apply Z.leb_gt in Hw.
    unfold first_row_of, upcoming in *. rewrite Heof in Hup.
    destruct (begun_ r); [injection Hup as <- _|]; lia.
Qed.

(** X9.  What [meltToDataFrame] hands over: the table starts with the
    rows of the tokens the call took from the upcoming ones, in order; it
    has at most one row more, and none at all when no token was taken.
    The collectors are left empty, and the tokens not taken are still
    upcoming. *)
Theorem meltToDataFrame_rows `{MeltEnv} (locale : Locale) (lines : Z)
    r out r' :
  is_eof (t_ r) = false -> meltToDataFrame locale lines r = Ok (out, r') ->
  exists ws,
    upcoming r = ws ++ upcoming r' /\
    take (length ws) out = melted locale <$> ws /\
    (length ws <= length out <= length ws + 1)%nat /\
    (ws = [] -> out = []) /\
    Forall (fun c => c = []) (collectors_ r') /\
    length (collectors_ r') = length (collectors_ r).
Proof.
  intros Heof Hd.
  apply meltToDataFrame_Ok in Hd as (ret & r1 & Hm & Ht & ->).
  destruct (melt_spec locale lines r ret r1 Hm Heof)
    as (ws & Hup & _ & _ & Hret & Hrows & _ & Hlen & m & Hcap & Hm1 & Hm0).
  pose proof (table_length _ _ _ Ht Hcap) as Hout.
  pose proof (table_four _ _ Ht) as H4.
  pose proof (table_written locale (collectors_ r1) ws H4 Hrows) as Hw.
  unfold written_rows in Hw. rewrite Ht in Hw. simpl in Hw.
  injection Hw as Hw.
  replace (Z.to_nat (Z.of_nat (length ws) - 1 + 1)) with (length ws) in Hw
    by lia.
  exists ws. simpl. split_and!; try done; try lia.
  - intros E. specialize (Hm0 E). subst m. by destruct out.
  - unfold collectorsClear. apply Forall_fmap, Forall_forall. done.
  - unfold collectorsClear. by rewrite length_fmap.
Qed.

Lemma meltToDataFrame_rows_witness :
  exists out r',
    meltToDataFrame (H := example_env) tt 2 (new_reader (grid 3 2))
      = Ok (out, r') /\
    exists ws,
      upcoming (new_reader (grid 3 2)) = ws ++ upcoming r' /\
      take (length ws) out = melted (H := example_env) tt <$> ws /\
      (length ws <= length out <= length ws + 1)%nat /\
      (ws = [] -> out = []) /\
      Forall (fun c => c = []) (collectors_ r') /\
      length (collectors_ r') = length (collectors_ (new_reader (grid 3 2))).
Proof.
  eexists _, _. split; [vm_compute; reflexivity|].
  apply (meltToDataFrame_rows (H := example_env) tt 2 (new_reader (grid 3 2)));
    [reflexivity|vm_compute; reflexivity].
Defined.

(** X10.  With [maxLines = 0], [meltToDataFrame] on a reader that is
    not exhausted hands over a table without rows and takes no token:
    all upcoming tokens are still upcoming. *)
Theorem meltToDataFrame_zero_lines `{MeltEnv} (locale : Locale) r out r' :
  is_eof (t_ r) = false -> meltToDataFrame locale 0 r = Ok (out, r') ->
  out = [] /\ upcoming r' = upcoming r /\ begun_ r' = true.
Proof.
  intros Heof Hd.
  apply meltToDataFrame_Ok in Hd as (ret & r1 & Hm & Ht & ->).
  destruct (melt_zero_lines locale r ret r1 Heof Hm) as (_ & Hup & Hcap).
  pose proof (table_length _ _ _ Ht Hcap) as Hout.
  destruct (melt_spec locale 0 r ret r1 Hm Heof)
    as (_ & _ & _ & _ & _ & _ & Hbegun & _).
  split_and!; [by destruct out|done|done].
Qed.

Lemma meltToDataFrame_zero_lines_witness :
  exists out r',
    meltToDataFrame (H := example_env) tt 0 (new_reader (grid 3 2))
      = Ok (out, r') /\
    out = [] /\ upcoming r' = upcoming (new_reader (grid 3 2)) /\
    begun_ r' = true.
Proof.
  eexists _, _. split; [vm_compute; reflexivity|].
  apply (meltToDataFrame_zero_lines (H := example_env) tt
           (new_reader (grid 3 2)));
    [reflexivity|vm_compute; reflexivity].
Defined.

(** X11.  Once a call of [meltToDataFrame] has left the reader
    exhausted, every further call, whatever its [maxLines], hands over a
    table without rows and leaves the reader as it is. *)
Theorem meltToDataFrame_exhausted `{MeltEnv} (locale : Locale)
    (lines lines' : Z) r out r' :
  meltToDataFrame locale lines r = Ok (out, r') -> is_eof (t_ r') = true ->
  meltToDataFrame locale lines' r' = Ok ([], r').
Proof.
  intros Hd Heof.
  apply meltToDataFrame_Ok in Hd as (ret & r1 & Hm & Ht & ->).
  pose proof (table_four _ _ Ht) as H4.
  unfold meltToDataFrame. rewrite melt_eof by done. simpl.
  rewrite table_clear by done. simpl.
  by rewrite collectorsClear_idemp.
Qed.

Lemma meltToDataFrame_exhausted_witness :
  exists out r',
    meltToDataFrame (H := example_env) tt (-1) (new_reader (grid 3 2))
      = Ok (out, r') /\
    is_eof (t_ r') = true /\
    meltToDataFrame (H := example_env) tt 2 r' = Ok ([], r').
Proof.
  destruct (meltToDataFrame (H := example_env) tt (-1) (new_reader (grid 3 2)))
    as [[out r']|f] eqn:Hm; [|vm_compute in Hm; discriminate].
  assert (Heof : is_eof (t_ r') = true)
    by (vm_compute in Hm; injection Hm as _ <-; reflexivity).
  exists out, r'. split; [reflexivity|]. split; [exact Heof|].
  exact (meltToDataFrame_exhausted (H := example_env) tt (-1) 2
           (new_reader (grid 3 2)) out r' Hm Heof).
Defined.

(** ** [init] *)

Lemma filter_ext_elem {A} (P Q : A -> Prop)
    `{!forall x, Decision (P x), !forall x, Decision (Q x)} (l : list A) :
  (forall x, x ∈ l -> (P x <-> Q x)) -> filter P l = filter Q l.
Proof.
  induction l as [|a l IH]; intros HPQ; [done|].
  rewrite !filter_cons, IH by (intros x Hx; apply HPQ; by right).
  destruct (decide (P a)) as [Ha|Ha], (decide (Q a)) as [Ha'|Ha']; try done;
    exfalso; apply (HPQ a ltac:(by left)) in Ha || apply (HPQ a ltac:(by left)) in Ha';
    done.
Qed.

Lemma filter_seq_increasing (P : nat -> Prop) `{!forall x, Decision (P x)} n :
  forall j i i' k k',
    (i < i')%nat -> filter P (seq j n) !! i = Some k ->
    filter P (seq j n) !! i' = Some k' -> (k < k')%nat.
Proof.
  induction n as [|n IH]; intros j i i' k k' Hii; simpl; [done|].
  rewrite filter_cons. case_decide; [|apply IH; done].
  destruct i as [|i], i' as [|i']; simpl; try lia.
  - intros [= <-] Hk'. apply list_elem_of_lookup_2 in Hk'.
    apply list_elem_of_filter in Hk' as [_ Hk']. apply elem_of_seq in Hk'. lia.
  - apply IH. lia.
Qed.

(** The first loop pushes the indices of the collectors that are not
    skipped, in increasing order, and attaches the sink to those. *)
Lemma keep_loop_spec cols : forall j kept,
  keep_loop j cols kept =
  (kept ++ filter (fun k => skip <$> cols !! (k - j)%nat = Some false)
             (seq j (length cols)),
   (fun c => if skip c then c else setWarnings c) <$> cols).
Proof.
  induction cols as [|c rest IH]; intros j kept; simpl.
  { by rewrite app_nil_r. }
  assert (Hrest :
    filter (fun k => skip <$> (c :: rest) !! (k - j)%nat = Some false)
      (seq (S j) (length rest)) =
    filter (fun k => skip <$> rest !! (k - S j)%nat = Some false)
      (seq (S j) (length rest))).
  { apply filter_ext_elem. intros k Hk. apply elem_of_seq in Hk.
    replace (k - j)%nat with (S (k - S j)) by lia. done. }
  rewrite filter_cons, Nat.sub_diag. simpl.
  destruct (skip c) eqn:Hc; rewrite IH.
  - rewrite decide_False by done. by rewrite Hrest.
  - rewrite decide_True by done. by rewrite <- app_assoc, Hrest.
Qed.

Lemma name_loop_Ok colNames kept : forall i out out',
  name_loop i kept colNames out = Ok out' ->
  length out' = length out /\
  (forall m k, kept !! m = Some k ->
     exists name, colNames !! k = Some name /\ out' !! (i + m)%nat = Some name) /\
  (forall m, (m < i)%nat -> out' !! m = out !! m).
Proof.
  induction kept as [|k rest IH]; intros i out out' Hn; simpl in Hn.
  { injection Hn as <-. split_and!; [done| |done]. by intros m k [=]. }
  destruct (colNames !! k) as [name|] eqn:Hk; [|done].
  destruct (decide (i < length out)%nat) as [Hi|Hi]; [|done].
  apply IH in Hn as (Hlen & Hnames & Hold).
  rewrite length_insert in Hlen. split_and!; [done| |].
  - intros [|m] k' Hm; simpl in Hm.
    + injection Hm as <-. exists name. split; [done|].
      rewrite Nat.add_0_r, Hold by lia. by apply list_lookup_insert_eq.
    + replace (i + S m)%nat with (S i + m)%nat by lia. by apply Hnames.
  - intros m Hm. rewrite Hold by lia. apply list_lookup_insert_ne. lia.
Qed.

Lemma name_loop_total colNames kept : forall i out,
  Forall (fun k => (k < length colNames)%nat) kept ->
  (i + length kept <= length out)%nat ->
  exists out', name_loop i kept colNames out = Ok out'.
Proof.
  induction kept as [|k rest IH]; intros i out Hall Hlen; simpl; [eauto|].
  apply Forall_cons in Hall as [Hk Hall].
  destruct (lookup_lt_is_Some_2 colNames k Hk) as [name ->]. simpl in Hlen.
  rewrite decide_True by lia. apply IH; [done|]. rewrite length_insert. lia.
Qed.

Lemma init_Ok cols colNames st :
  init cols colNames = Ok st ->
  keptColumns_ st =
    filter (fun j => skip <$> cols !! j = Some false) (seq 0 (length cols)) /\
  columns_ st = (fun c => if skip c then c else setWarnings c) <$> cols /\
  (colNames = [] -> outNames_ st = []) /\
  (colNames <> [] ->
   name_loop 0 (keptColumns_ st) colNames
     (replicate (length (keptColumns_ st)) "") = Ok (outNames_ st)).
Proof.
  unfold init. rewrite keep_loop_spec. simpl.
  assert (Hf :
    filter (fun k => skip <$> cols !! (k - 0)%nat = Some false)
      (seq 0 (length cols)) =
    filter (fun j => skip <$> cols !! j = Some false) (seq 0 (length cols))).
  { apply filter_ext_elem. intros k _. by rewrite Nat.sub_0_r. }
  rewrite Hf. destruct colNames as [|name names]; simpl.
  - intros [= <-]. done.
  - intros Hi. inv_bind Hi. injection Hi as <-. simpl. done.
Qed.

Lemma filter_all {A} (P : A -> Prop) `{!forall x, Decision (P x)} (l : list A) :
  (forall x, x ∈ l -> P x) -> filter P l = l.
Proof.
  induction l as [|a l IH]; intros HP; [done|].
  rewrite filter_cons_True by (apply HP; by left).
  rewrite IH; [done|]. intros x Hx. apply HP. by right.
Qed.

Lemma kept_elem_of cols j :
  j ∈ filter (fun j => skip <$> cols !! j = Some false) (seq 0 (length cols))
  <-> exists c, cols !! j = Some c /\ skip c = false.
Proof.
  rewrite list_elem_of_filter, elem_of_seq. split.
  - intros [Hs _]. destruct (cols !! j) as [c|]; [|done].
    exists c. split; [done|]. by injection Hs.
  - intros (c & Hj & Hs). rewrite Hj. simpl. split; [by rewrite Hs|].
    apply lookup_lt_Some in Hj. lia.
Qed.

(** [init] goes through when every kept column has a name. *)
Lemma init_total cols colNames :
  (forall j c, cols !! j = Some c -> skip c = false ->
               (j < length colNames)%nat) ->
  exists st, init cols colNames = Ok st.
Proof.
  intros Hok. unfold init. rewrite keep_loop_spec. simpl.
  destruct colNames as [|name names]; simpl; [eauto|].
  edestruct (name_loop_total (name :: names)) as [out ->]; [| |simpl; eauto].
  - apply Forall_forall. intros k Hk.
    apply list_elem_of_filter in Hk as [Hs Hk].
    rewrite Nat.sub_0_r in Hs. destruct (cols !! k) as [c|] eqn:Hc; [|done].
    apply (Hok k c Hc). by injection Hs.
  - rewrite length_replicate. lia.
Qed.

(** X12.  After [init], [keptColumns_] lists the indices of the
    collectors that are not skipped, all of them, each once and in
    increasing order; the warning sink is attached to those collectors
    and the skipped ones are left as they were. *)
Theorem init_keptColumns cols colNames st :
  init cols colNames = Ok st ->
  keptColumns_ st =
    filter (fun j => skip <$> cols !! j = Some false) (seq 0 (length cols)) /\
  (forall j, j ∈ keptColumns_ st <->
             exists c, cols !! j = Some c /\ skip c = false) /\
  (forall i i' k k', (i < i')%nat -> keptColumns_ st !! i = Some k ->
     keptColumns_ st !! i' = Some k' -> (k < k')%nat) /\
  length (columns_ st) = length cols /\
  (forall j c, cols !! j = Some c ->
     columns_ st !! j =
       Some (mkColumn (skip c) (if skip c then warned c else true))).
Proof.
  intros Hi. apply init_Ok in Hi as (Hk & Hc & _).
  rewrite Hk, Hc. split_and!; [done| | | |].
  - apply kept_elem_of.
  - apply filter_seq_increasing.
  - by rewrite length_fmap.
  - intros j c Hj. rewrite list_lookup_fmap, Hj. simpl.
    unfold setWarnings. by destruct c as [[] w].
Qed.

Lemma init_keptColumns_witness :
  exists st,
    init example_columns example_names = Ok st /\
    keptColumns_ st =
      filter (fun j => skip <$> example_columns !! j = Some false)
        (seq 0 (length example_columns)) /\
    (forall j, j ∈ keptColumns_ st <->
               exists c, example_columns !! j = Some c /\ skip c = false) /\
    (forall i i' k k', (i < i')%nat -> keptColumns_ st !! i = Some k ->
       keptColumns_ st !! i' = Some k' -> (k < k')%nat) /\
    length (columns_ st) = length example_columns /\
    (forall j c, example_columns !! j = Some c ->
       columns_ st !! j =
         Some (mkColumn (skip c) (if skip c then warned c else true))).
Proof.
  eexists. split; [vm_compute; reflexivity|].
  apply (init_keptColumns example_columns example_names).
  vm_compute; reflexivity.
Defined.

(** X13.  When column names are given, [init] leaves in [outNames_]
    one name for each kept column, in the order of [keptColumns_]: the
    [i]-th is the name [colNames] has at the index of the [i]-th kept
    column.  When none is given, [outNames_] stays empty. *)
Theorem init_outNames cols colNames st :
  init cols colNames = Ok st ->
  (colNames = [] -> outNames_ st = []) /\
  (colNames <> [] ->
   length (outNames_ st) = length (keptColumns_ st) /\
   forall i k, keptColumns_ st !! i = Some k ->
     exists name, colNames !! k = Some name /\ outNames_ st !! i = Some name).
Proof.
  intros Hi. apply init_Ok in Hi as (_ & _ & Hnil & Hnames).
  split; [done|]. intros Hne. specialize (Hnames Hne).
  apply name_loop_Ok in Hnames as (Hlen & Hn & _).
  rewrite length_replicate in Hlen. split; [done|].
  intros i k Hik. by apply (Hn i k).
Qed.

Lemma init_outNames_witness :
  exists st,
    init example_columns example_names = Ok st /\
    (example_names = [] -> outNames_ st = []) /\
    (example_names <> [] ->
     length (outNames_ st) = length (keptColumns_ st) /\
     forall i k, keptColumns_ st !! i = Some k ->
       exists name,
         example_names !! k = Some name /\ outNames_ st !! i = Some name).
Proof.
  eexists. split; [vm_compute; reflexivity|].
  apply (init_outNames example_columns example_names).
  vm_compute; reflexivity.
Defined.

(** X14.  [init] reads [colNames] at the index of every kept column,
    whether or not there is a name there, and writes [outNames_] within
    its size always.  So it stays within [colNames], and goes through,
    exactly when no names are given or every collector that is not
    skipped has an index below the number of names. *)
Theorem init_succeeds_iff cols colNames :
  (exists st, init cols colNames = Ok st) <->
  (colNames = [] \/
   forall j c, cols !! j = Some c -> skip c = false ->
               (j < length colNames)%nat).
Proof.
  split.
  - intros [st Hi]. destruct colNames as [|name names]; [by left|right].
    apply init_Ok in Hi as (Hkept & _ & _ & Hnames).
    specialize (Hnames ltac:(done)).
    apply name_loop_Ok in Hnames as (_ & Hn & _).
    intros j c Hj Hs.
    assert (Hk : j ∈ keptColumns_ st).
    { rewrite Hkept. apply kept_elem_of. eauto. }
    apply list_elem_of_lookup in Hk as [i Hi].
    destruct (Hn i j Hi) as (nm & Hnm & _). by eapply lookup_lt_Some.
  - intros [->|Hok]; [|by apply init_total].
    unfold init. rewrite keep_loop_spec. simpl. eauto.
Qed.

Lemma init_succeeds_iff_witness :
  (forall j c, example_columns !! j = Some c -> skip c = false ->
               (j < length example_names)%nat) /\
  exists st, init example_columns example_names = Ok st.
Proof.
  assert (Hn : forall j c, example_columns !! j = Some c -> skip c = false ->
                           (j < length example_names)%nat).
  { intros j c Hj _. apply lookup_lt_Some in Hj. exact Hj. }
  split; [exact Hn|].
  apply (proj2 (init_succeeds_iff example_columns example_names)).
  right. exact Hn.
Defined.

(** X15.  With no collector skipped and one name for each, [init]
    keeps every column under its own name: [keptColumns_] is
    [0 .. p - 1], [outNames_] is [colNames], and the sink is attached to
    every collector. *)
Theorem init_no_skip cols colNames :
  Forall (fun c => skip c = false) cols -> length colNames = length cols ->
  init cols colNames
    = Ok (mkColumns (seq 0 (length cols)) colNames (setWarnings <$> cols)).
Proof.
  intros Hall Hlen.
  destruct (init_total cols colNames) as [st Hi].
  { intros j c Hj _. apply lookup_lt_Some in Hj. lia. }
  rewrite Hi. f_equal.
  pose proof (init_Ok _ _ _ Hi) as (Hk & Hc & Hnil & Hnames).
  rewrite filter_all in Hk.
  2:{ intros k Hk'. apply elem_of_seq in Hk'.
      destruct (lookup_lt_is_Some_2 cols k ltac:(lia)) as [c Hc'].
      rewrite Hc'. simpl. f_equal.
      by apply (Forall_lookup_1 _ _ _ _ Hall Hc'). }
  destruct st as [kept names cols']. simpl in *. subst kept cols'. f_equal.
  - destruct (decide (colNames = [])) as [->|Hne]; [by apply Hnil|].
    apply name_loop_Ok in Hnames as (Hl & Hn & _); [|done].
    rewrite length_replicate, length_seq in Hl.
    apply list_eq_same_length with (length cols); [done|done|].
    intros i x y Hi' Hx Hy.
    destruct (Hn i i) as (nm & Hnm & Hout); [by apply lookup_seq_lt|].
    simpl in Hout. congruence.
  - apply list_fmap_ext. intros i c Hc'.
    by rewrite (Forall_lookup_1 _ _ _ _ Hall Hc').
Qed.

Lemma init_no_skip_witness :
  Forall (fun c => skip c = false) [mkColumn false false; mkColumn false true] /\
  init [mkColumn false false; mkColumn false true] ["a"; "b"]
    = Ok (mkColumns (seq 0 2) ["a"; "b"]
            (setWarnings <$> [mkColumn false false; mkColumn false true])).
Proof.
  split; [repeat constructor|].
  apply (init_no_skip [mkColumn false false; mkColumn false true] ["a"; "b"]);
    [repeat constructor|reflexivity].
Defined.

(** ** Sources that fit the first capacity *)

Section Small.
Context `{MeltEnv}.
Variables (locale : Locale) (lines first_row : Z) (show : bool).

Lemma melt_loop_small toks : forall t p s,
  0 <= ls_cells s ->
  ls_cells s + Z.of_nat (length (pending t toks)) < ls_n s ->
  (4 <= length (ls_collectors s))%nat ->
  capacity (Z.to_nat (ls_n s)) (ls_collectors s) ->
  exists res, melt_loop locale lines first_row show toks t p s = Ok res.
Proof.
  induction toks as [|[t1 p1] rest IH]; intros t p s Hc Hsmall Hlen Hcap;
    simpl; destruct (is_eof t) eqn:Heof; eauto.
  all: unfold pending in Hsmall; rewrite Heof in Hsmall; cbn [length] in Hsmall.
  all: assert (Hb : exists st,
         melt_body locale lines first_row show t p s = Ok st /\
         forall s', st = Next s' ->
           ls_cells s' = ls_cells s + 1 /\ ls_n s' = ls_n s /\
           (4 <= length (ls_collectors s'))%nat /\
           capacity (Z.to_nat (ls_n s')) (ls_collectors s')).
  1,3: unfold melt_body;
       destruct (at_boundary lines first_row t);
         [eexists; split; [done|done]|];
       replace (ls_cells s + 1 - 1) with (ls_cells s) by lia;
       unfold grow; replace (ls_n s <=? ls_cells s + 1) with false by lia;
       simpl;
       assert (Hi : 0 <= ls_cells s < Z.of_nat (Z.to_nat (ls_n s))) by lia;
       destruct (setValue_in_range 0 (ls_cells s)
                   (VInt (Z.of_N (row t) + 1)) (ls_collectors s) _
                   Hcap ltac:(lia) Hi) as [cs1 H1];
       rewrite H1; simpl;
       destruct (setValue_capacity _ _ _ _ _ _ H1 Hcap) as [Hcap1 _];
       pose proof (setValue_length _ _ _ _ _ H1) as Hlen1;
       destruct (setValue_in_range 1 (ls_cells s)
                   (VInt (Z.of_N (col t) + 1)) cs1 _
                   Hcap1 ltac:(lia) Hi) as [cs2 H2];
       rewrite H2; simpl;
       destruct (setValue_capacity _ _ _ _ _ _ H2 Hcap1) as [Hcap2 _];
       pose proof (setValue_length _ _ _ _ _ H2) as Hlen2;
       destruct (setValue_in_range 3 (ls_cells s) (VTok t) cs2 _
                   Hcap2 ltac:(lia) Hi) as [cs3 H3];
       rewrite H3; simpl;
       destruct (setValue_capacity _ _ _ _ _ _ H3 Hcap2) as [Hcap3 _];
       pose proof (setValue_length _ _ _ _ _ H3) as Hlen3;
       destruct (writeType_in_range locale (ls_cells s) t cs3 _ Heof Hcap3
                   ltac:(lia) Hi) as [cs4 H4];
       rewrite H4; simpl;
       apply writeType_Ok in H4 as [_ H4];
       destruct (setValue_capacity _ _ _ _ _ _ H4 Hcap3) as [Hcap4 _];
       pose proof (setValue_length _ _ _ _ _ H4) as Hlen4;
       eexists; (split; [done|]); intros s' [= <-]; simpl;
       split_and!; [done|done|lia|done].
  all: destruct Hb as ([s'|s'] & -> & Hinv); eauto.
  destruct (Hinv s' eq_refl) as (Hcells & Hn & Hlen' & Hcap').
  apply IH; try done; [lia|]. rewrite Hcells, Hn.
  rewrite pending_cons in Hsmall. lia.
Qed.

End Small.

(** X16.  A source that fits the first capacity never consults the
    tokenizer's progress: when fewer tokens are upcoming than the capacity
    [melt] starts with (10000, or 10 times [maxLines]), the growth check
    never fires and the call goes through whatever the progress readings
    are, zero included. *)
Theorem melt_small_source `{MeltEnv} (locale : Locale) (lines : Z) r :
  (4 <= length (collectors_ r))%nat ->
  Z.of_nat (length (upcoming r)) < (if lines <? 0 then 10000 else lines * 10) ->
  exists ret r', melt locale lines r = Ok (ret, r').
Proof.
  intros Hlen Hsmall. unfold melt.
  destruct (is_eof (t_ r)) eqn:Heof; [eauto|].
  set (n := if lines <? 0 then 10000 else lines * 10) in *.
  assert (Hn : 0 <= n) by (unfold n; destruct (lines <? 0) eqn:E; lia).
  rewrite collectorsResize_nonneg by done. simpl.
  destruct (melt_entry r Heof) as (t & tk & -> & Hup & _).
  destruct (melt_loop_small locale lines (first_row_of r) (progress_ r)
              (stream tk) t (now tk)
              (mkLoop 0 n (-1) (resize (Z.to_nat n) NA <$> collectors_ r)
                 (progressBar_ r)))
    as [[[t' tk'] s] Hl]; simpl; try done.
  - rewrite Hup. lia.
  - by rewrite length_fmap.
  - apply resize_capacity.
  - rewrite Hl. simpl.
    apply melt_loop_spec in Hl as (ws & _ & _ & _ & Hcells & _); [|simpl; lia].
    simpl in Hcells. unfold finalize.
    destruct (ls_last_row s =? -1); [rewrite collectorsResize_nonneg by lia; eauto|].
    destruct (ls_cells s <? ls_n s - 1);
      [rewrite collectorsResize_nonneg by lia; eauto|eauto].
Qed.

Lemma melt_small_source_witness :
  Forall (fun x => x.2 = (0%Q, 0%N)) (stalled (grid 2 2)) /\
  exists ret r',
    melt (H := example_env) tt 1 (new_reader (stalled (grid 2 2)))
      = Ok (ret, r').
Proof.
  split; [repeat constructor|].
  apply (melt_small_source (H := example_env) tt 1
           (new_reader (stalled (grid 2 2))));
    [simpl; lia|vm_compute; reflexivity].
Defined.
